(** * Outpost sprite generator ([Outpost/generate_sprites.py])

    A shallow embedding of the sprite generator: the palette, the canvas
    primitives, the sprite drawers, the asset emitter and the driver, with
    the properties of the generation pipeline proved about them.

    Python objects that the script mutates in place (Pillow images) live in
    a heap of the [world]; what the script does to its environment (the
    directories it makes, the files it writes, the lines it prints) is
    appended to the world's [trace]. The environment is taken to accept
    every operation: errors of the file system are not modelled. *)

From stdpp Require Import base strings list gmap pretty.
From Stdlib Require Import ZArith Lia Ascii.

Local Open Scope Z_scope.

(** ** Values *)

(** An RGB triple and an RGBA quadruple, as the Python tuples. *)
Definition rgb : Type := Z * Z * Z.
Definition rgba : Type := Z * Z * Z * Z.

(** The [color] argument of [draw_pixel] and [fill_rect]: a [str] naming a
    palette entry, or a literal triple. *)
Inductive color : Type :=
  | Name (s : string)
  | Tuple (c : rgb).

Coercion Name : string >-> color.

(** [color + (255,)] on a triple. *)
Definition with_alpha (c : rgb) (a : Z) : rgba :=
  let '(r, g, b) := c in (r, g, b, a).

(** [t[:3]] on a quadruple. *)
Definition slice3 (t : rgba) : rgb :=
  let '(r, g, b, _) := t in (r, g, b).

(** A Pillow image in mode RGBA: its size [(width, height)] and its rows of
    pixels, row [y] holding the pixels [(0, y)], [(1, y)], ... *)
Record Image : Type := mkImage {
  im_size : Z * Z;
  im_rows : list (list rgba)
}.

Set Warnings "-register-all".

(** The JSON values handed to [json.dump]. *)
Inductive json : Type :=
  | JStr (s : string)
  | JInt (n : Z)
  | JBool (b : bool)
  | JList (l : list json)
  | JDict (l : list (string * json)).

(** The exceptions that the modelled operations can raise. [BadRef] stands
    for the use of a reference that names no object, which Python rules
    out; the embedding has to give it a meaning. *)
Inductive exn : Type :=
  | KeyError (k : string)
  | IndexError
  | BadRef.

(** ** The world *)

Definition ref : Type := nat.

(** What the script does to its environment, in the order it does it. *)
Inductive event : Type :=
  | EMakedirs (path : string)
  | ESave (path : string) (img : Image)
  | EWriteJson (path : string) (j : json)
  | EPrint (line : string).

Record world : Type := mkWorld {
  heap : list Image;
  trace : list event
}.

Definition set_heap (h : list Image) (w : world) : world :=
  {| heap := h; trace := trace w |}.

Definition emit (e : event) (w : world) : world :=
  {| heap := heap w; trace := trace w ++ [e] |}.

(** ** A state and exception monad over the world *)

Inductive outcome (A : Type) : Type :=
  | Ret (a : A)
  | Raise (e : exn).
Arguments Ret {A} a.
Arguments Raise {A} e.

Definition M (A : Type) : Type := world → outcome A * world.

Global Instance M_ret : MRet M := λ A a w, (Ret a, w).

Global Instance M_bind : MBind M := λ A B f m w,
  match m w with
  | (Ret a, w') => f a w'
  | (Raise e, w') => (Raise e, w')
  end.

Definition raise {A} (e : exn) : M A := λ w, (Raise e, w).

(** [for x in xs: body(x)], in any monad. *)
Fixpoint for_ {m : Type → Type} `{!MRet m, !MBind m} {A}
    (xs : list A) (body : A → m unit) : m unit :=
  match xs with
  | [] => mret tt
  | x :: xs' => body x ;; for_ xs' body
  end.

(** [range(a, b)], [range(b)] and [range(a, b, step)] for a positive step. *)
Definition range2 (a b : Z) : list Z := seqZ a (b - a).
Definition range (b : Z) : list Z := range2 0 b.
Definition range3 (a b step : Z) : list Z :=
  (λ i, a + i * step) <$> seqZ 0 ((b - a + step - 1) `div` step).

(** [enumerate(xs)] *)
Definition enumerate {A} (xs : list A) : list (Z * A) :=
  zip (seqZ 0 (Z.of_nat (length xs))) xs.

(** ** Pillow primitives *)

(** [Image.new('RGBA', size, fill)]: a fresh image object. *)
Definition blank (size : Z * Z) (fill : rgba) : Image :=
  {| im_size := size;
     im_rows := replicate (Z.to_nat size.2) (replicate (Z.to_nat size.1) fill) |}.

Definition alloc (im : Image) : M ref := λ w,
  (Ret (length (heap w)), set_heap (heap w ++ [im]) w).

Definition Image_new (size : Z * Z) (fill : rgba) : M ref :=
  alloc (blank size fill).

(** Reading a pixel of an image value; [None] outside the image. *)
Definition pixel (im : Image) (x y : Z) : option rgba :=
  if (0 <=? x) && (x <? im.(im_size).1) && (0 <=? y) && (y <? im.(im_size).2)
  then row ← im_rows im !! Z.to_nat y; row !! Z.to_nat x
  else None.

Definition set_pixel_im (im : Image) (x y : Z) (v : rgba) : Image :=
  {| im_size := im_size im;
     im_rows := alter (λ row, <[Z.to_nat x := v]> row) (Z.to_nat y) (im_rows im) |}.

(** [img.putpixel((x, y), v)]. Pillow counts a negative coordinate from the
    far edge, and raises [IndexError] for a coordinate outside the image. *)
Definition putpixel (img : ref) (xy : Z * Z) (v : rgba) : M unit := λ w,
  match heap w !! img with
  | None => (Raise BadRef, w)
  | Some im =>
      let x := if xy.1 <? 0 then im.(im_size).1 + xy.1 else xy.1 in
      let y := if xy.2 <? 0 then im.(im_size).2 + xy.2 else xy.2 in
      if (0 <=? x) && (x <? im.(im_size).1) && (0 <=? y) && (y <? im.(im_size).2)
      then (Ret tt, set_heap (<[img := set_pixel_im im x y v]> (heap w)) w)
      else (Raise IndexError, w)
  end.

(** ** The palette and the canvas primitives *)

Definition TILE_SIZE : Z := 16.

Definition COLORS_items : list (string * rgb) := [
  ("grass_light", (98, 168, 68));
  ("grass_dark", (68, 138, 48));
  ("tree_dark", (34, 82, 34));
  ("tree_light", (54, 112, 54));
  ("shrub", (78, 128, 58));
  ("plant_green", (88, 178, 88));
  ("dirt_light", (158, 118, 78));
  ("dirt_dark", (128, 88, 58));
  ("wood_light", (168, 128, 88));
  ("wood_med", (138, 98, 58));
  ("wood_dark", (108, 78, 48));
  ("bark", (88, 58, 38));
  ("stone_light", (148, 148, 148));
  ("stone_med", (118, 118, 118));
  ("stone_dark", (88, 88, 88));
  ("wall_dark", (68, 68, 68));
  ("water_light", (88, 148, 218));
  ("water_dark", (58, 118, 188));
  ("water_deep", (38, 88, 158));
  ("metal_light", (178, 178, 188));
  ("metal_dark", (128, 128, 138));
  ("gold", (218, 178, 58));
  ("gold_dark", (178, 138, 38));
  ("skin", (218, 178, 138));
  ("skin_dark", (188, 148, 108));
  ("beard_brown", (98, 68, 48));
  ("goblin_green", (88, 138, 68));
  ("goblin_dark", (58, 108, 48));
  ("wolf_gray", (128, 128, 128));
  ("wolf_dark", (88, 88, 88));
  ("bear_brown", (118, 78, 48));
  ("bear_dark", (88, 58, 38));
  ("giant_purple", (138, 108, 148));
  ("undead_pale", (158, 178, 158));
  ("undead_dark", (108, 128, 108));
  ("bread", (218, 178, 98));
  ("meat_red", (198, 78, 78));
  ("meat_dark", (158, 58, 58));
  ("ale", (168, 118, 48));
  ("fabric_red", (178, 68, 68));
  ("fabric_blue", (68, 98, 158));
  ("select_yellow", (255, 238, 68));
  ("select_orange", (255, 178, 38));
  ("empty", (28, 28, 38));
  ("black", (0, 0, 0));
  ("white", (255, 255, 255))
].

(** The dict display [COLORS = {...}]: the items are inserted in order, a
    later one replacing an earlier one of the same key. *)
Definition COLORS : gmap string rgb :=
  foldl (λ m kv, <[kv.1 := kv.2]> m) ∅ COLORS_items.

(** The canvas primitives as the drawers call them. The drawers below are
    written once against this interface; [Run] gives the primitives as the
    script defines them, and [Calls] records the color arguments that a
    drawer passes. *)
Class Canvas (m : Type → Type) : Type := {
  new_image : m ref;
  draw_pixel : ref → Z → Z → color → m unit;
  fill_rect : ref → Z → Z → Z → Z → color → m unit;
  COLORS_get : string → m rgb
}.

(** The primitives of the script. *)
Module Run.

(** [COLORS[k]] *)
Definition COLORS_get (k : string) : M rgb :=
  match COLORS !! k with
  | Some c => mret c
  | None => raise (KeyError k)
  end.

Definition new_image : M ref :=
  Image_new (TILE_SIZE, TILE_SIZE) (0, 0, 0, 0).

Definition draw_pixel (img : ref) (x y : Z) (color : color) : M unit :=
  if (0 <=? x) && (x <? TILE_SIZE) && (0 <=? y) && (y <? TILE_SIZE) then
    c ← match color with
        | Name s => COLORS_get s
        | Tuple c => mret c
        end;
    putpixel img (x, y) (with_alpha c 255)
  else mret tt.

Definition fill_rect (img : ref) (x y w h : Z) (color : color) : M unit :=
  for_ (range2 y (y + h)) (λ py,
    for_ (range2 x (x + w)) (λ px,
      draw_pixel img px py color)).

End Run.

Global Instance Run_Canvas : Canvas M := {|
  new_image := Run.new_image;
  draw_pixel := Run.draw_pixel;
  fill_rect := Run.fill_rect;
  COLORS_get := Run.COLORS_get
|}.

(** The color arguments of the calls that a drawer makes: a computation
    that touches no image and collects, in order, the color argument of each
    call of [draw_pixel] and [fill_rect], and the name of each direct
    subscript of [COLORS]. *)
Definition Calls (A : Type) : Type := A * list color.

Global Instance Calls_ret : MRet Calls := λ A a, (a, []).

Global Instance Calls_bind : MBind Calls := λ A B f m,
  let '(b, l) := f m.1 in (b, m.2 ++ l).

Global Instance Calls_Canvas : Canvas Calls := {|
  new_image := (0%nat, []);
  draw_pixel _ _ _ color := (tt, [color]);
  fill_rect _ _ _ _ _ color := (tt, [color]);
  COLORS_get k := (default (0, 0, 0) (COLORS !! k), [Name k])
|}.

(** ** The sprite drawers *)

Section Drawers.
Context {m : Type → Type} `{!MRet m, !MBind m, !Canvas m}.

(** Terrain sprites *)

Definition terrain_empty_air : m ref :=
  img ← new_image;
  fill_rect img 0 0 16 16 "empty";;
  for_ [(3, 4); (8, 2); (12, 7); (5, 12); (14, 11)] (λ pos : Z * Z,
    draw_pixel img pos.1 pos.2 (Tuple (slice3 (48, 48, 58, 255))));;
  mret img.

Definition terrain_grass : m ref :=
  img ← new_image;
  fill_rect img 0 0 16 16 "grass_dark";;
  for_ (range 16) (λ y,
    for_ (range 16) (λ x,
      if (x + y) `mod` 3 =? 0 then draw_pixel img x y "grass_light"
      else mret tt));;
  for_ [1; 4; 7; 10; 13] (λ x,
    draw_pixel img x 0 "grass_light";;
    draw_pixel img (x + 1) 1 "grass_light");;
  mret img.

Definition terrain_dirt : m ref :=
  img ← new_image;
  fill_rect img 0 0 16 16 "dirt_dark";;
  for_ (range 16) (λ y,
    for_ (range 16) (λ x,
      if (x * 3 + y * 7) `mod` 5 =? 0 then draw_pixel img x y "dirt_light"
      else mret tt));;
  for_ [(3, 5); (10, 8); (6, 12)] (λ pos : Z * Z,
    draw_pixel img pos.1 pos.2 "stone_med");;
  mret img.

Definition terrain_stone : m ref :=
  img ← new_image;
  fill_rect img 0 0 16 16 "stone_med";;
  for_ (range 16) (λ y,
    for_ (range 16) (λ x,
      if (x * 5 + y * 3) `mod` 7 =? 0 then draw_pixel img x y "stone_dark"
      else if (x * 2 + y * 5) `mod` 9 =? 0 then draw_pixel img x y "stone_light"
      else mret tt));;
  mret img.

Definition terrain_water : m ref :=
  img ← new_image;
  fill_rect img 0 0 16 16 "water_dark";;
  for_ (range3 0 16 4) (λ y,
    for_ (range 16) (λ x,
      if (x + y `div` 4) `mod` 4 <? 2 then
        draw_pixel img x y "water_light";;
        draw_pixel img x (y + 1) "water_light"
      else mret tt));;
  for_ [(2, 3); (8, 7); (13, 11)] (λ pos : Z * Z,
    draw_pixel img pos.1 pos.2 (Tuple (128, 188, 238)));;
  mret img.

Definition terrain_tree : m ref :=
  img ← new_image;
  fill_rect img 0 0 16 16 "grass_dark";;
  fill_rect img 6 10 4 6 "bark";;
  fill_rect img 7 11 2 4 "wood_dark";;
  fill_rect img 3 2 10 9 "tree_dark";;
  fill_rect img 2 4 12 5 "tree_dark";;
  fill_rect img 4 3 4 4 "tree_light";;
  draw_pixel img 5 4 "shrub";;
  mret img.

Definition terrain_shrub : m ref :=
  img ← new_image;
  fill_rect img 0 0 16 16 "grass_dark";;
  fill_rect img 3 6 10 8 "shrub";;
  fill_rect img 5 4 6 4 "shrub";;
  for_ [(5, 7); (8, 5); (10, 8)] (λ pos : Z * Z,
    draw_pixel img pos.1 pos.2 "grass_light");;
  for_ [(6, 9); (9, 7); (11, 10)] (λ pos : Z * Z,
    draw_pixel img pos.1 pos.2 (Tuple (198, 58, 58)));;
  mret img.

Definition terrain_wall : m ref :=
  img ← new_image;
  fill_rect img 0 0 16 16 "wall_dark";;
  fill_rect img 0 0 8 6 "stone_dark";;
  fill_rect img 8 0 8 8 "stone_med";;
  fill_rect img 0 6 10 6 "stone_med";;
  fill_rect img 10 8 6 8 "stone_dark";;
  for_ [(4, 3); (12, 5); (6, 10); (3, 13)] (λ pos : Z * Z,
    draw_pixel img pos.1 pos.2 "black");;
  mret img.

Definition terrain_ore : m ref :=
  img ← new_image;
  fill_rect img 0 0 16 16 "stone_dark";;
  fill_rect img 2 3 4 3 "gold";;
  fill_rect img 9 7 5 4 "gold";;
  fill_rect img 4 11 3 3 "gold";;
  for_ [(3, 4); (11, 8); (5, 12)] (λ pos : Z * Z,
    draw_pixel img pos.1 pos.2 "gold_dark");;
  for_ [(4, 3); (10, 9); (6, 11)] (λ pos : Z * Z,
    draw_pixel img pos.1 pos.2 "white");;
  mret img.

Definition terrain_wooden_floor : m ref :=
  img ← new_image;
  fill_rect img 0 0 16 16 "wood_med";;
  for_ [0; 4; 8; 12] (λ y,
    fill_rect img 0 y 16 1 "wood_dark");;
  for_ (range 16) (λ y,
    for_ (range 16) (λ x,
      if (x + y * 3) `mod` 8 =? 0 then draw_pixel img x y "wood_light"
      else mret tt));;
  mret img.

Definition terrain_stone_floor : m ref :=
  img ← new_image;
  fill_rect img 0 0 16 16 "stone_light";;
  for_ [0; 8] (λ y,
    fill_rect img 0 y 16 1 "stone_dark");;
  for_ [0; 8] (λ x,
    fill_rect img x 0 1 16 "stone_dark");;
  fill_rect img 1 1 6 6 "stone_med";;
  fill_rect img 9 9 6 6 "stone_med";;
  mret img.

Definition terrain_constructed_wall : m ref :=
  img ← new_image;
  fill_rect img 0 0 16 16 "stone_med";;
  for_ (range3 0 16 4) (λ y,
    fill_rect img 0 y 16 1 "stone_dark";;
    let offset := if (y `div` 4) `mod` 2 =? 0 then 4 else 0 in
    for_ (range3 offset 16 8) (λ x,
      fill_rect img x y 1 4 "stone_dark"));;
  mret img.

Definition terrain_stairs_up : m ref :=
  img ← new_image;
  fill_rect img 0 0 16 16 "stone_dark";;
  for_ (enumerate [12; 8; 4; 0]) (λ '(i, y),
    fill_rect img 0 y 16 4
      (if i `mod` 2 =? 0 then "stone_med" else "stone_light");;
    fill_rect img 0 y 16 1 "stone_dark");;
  fill_rect img 7 5 2 6 "white";;
  for_ (range 3) (λ i,
    draw_pixel img (7 - i) (5 + i) "white";;
    draw_pixel img (8 + i) (5 + i) "white");;
  mret img.

Definition terrain_stairs_down : m ref :=
  img ← new_image;
  fill_rect img 0 0 16 16 "stone_dark";;
  for_ (enumerate [0; 4; 8; 12]) (λ '(i, y),
    fill_rect img 0 y 16 4
      (if i `mod` 2 =? 0 then "stone_med" else "stone_light");;
    fill_rect img 0 (y + 3) 16 1 "stone_dark");;
  fill_rect img 7 5 2 6 "white";;
  for_ (range 3) (λ i,
    draw_pixel img (7 - i) (11 - i) "white";;
    draw_pixel img (8 + i) (11 - i) "white");;
  mret img.

Definition terrain_stairs_updown : m ref :=
  img ← new_image;
  fill_rect img 0 0 16 16 "stone_med";;
  for_ [0; 4; 8; 12] (λ y,
    fill_rect img 0 y 16 1 "stone_dark");;
  fill_rect img 3 4 2 8 "white";;
  draw_pixel img 2 5 "white";;
  draw_pixel img 5 5 "white";;
  fill_rect img 11 4 2 8 "white";;
  draw_pixel img 10 11 "white";;
  draw_pixel img 13 11 "white";;
  mret img.

Definition terrain_ramp_up : m ref :=
  img ← new_image;
  fill_rect img 0 0 16 16 "stone_dark";;
  for_ (range 16) (λ i,
    fill_rect img 0 (15 - i) (i + 1) 1 "stone_med");;
  for_ (range 14) (λ i,
    draw_pixel img i (14 - i) "stone_light");;
  mret img.

Definition terrain_ramp_down : m ref :=
  img ← new_image;
  fill_rect img 0 0 16 16 "stone_dark";;
  for_ (range 16) (λ i,
    fill_rect img (15 - i) (15 - i) (i + 1) 1 "stone_med");;
  for_ (range 14) (λ i,
    draw_pixel img (15 - i) (14 - i) "stone_light");;
  mret img.

(** Creature sprites *)

Definition creature_dwarf : m ref :=
  img ← new_image;
  fill_rect img 4 7 8 6 "fabric_blue";;
  fill_rect img 5 2 6 5 "skin";;
  fill_rect img 5 5 6 4 "beard_brown";;
  fill_rect img 6 8 4 2 "beard_brown";;
  draw_pixel img 6 3 "black";;
  draw_pixel img 9 3 "black";;
  fill_rect img 5 1 6 2 "metal_dark";;
  draw_pixel img 7 0 "metal_light";;
  draw_pixel img 8 0 "metal_light";;
  fill_rect img 5 13 2 3 "skin_dark";;
  fill_rect img 9 13 2 3 "skin_dark";;
  fill_rect img 2 8 2 4 "skin";;
  fill_rect img 12 8 2 4 "skin";;
  mret img.

Definition creature_goblin : m ref :=
  img ← new_image;
  fill_rect img 5 6 6 7 "goblin_dark";;
  fill_rect img 4 1 8 6 "goblin_green";;
  draw_pixel img 3 2 "goblin_green";;
  draw_pixel img 12 2 "goblin_green";;
  draw_pixel img 5 3 (Tuple (255, 68, 68));;
  draw_pixel img 10 3 (Tuple (255, 68, 68));;
  fill_rect img 6 5 4 1 "black";;
  fill_rect img 5 13 2 3 "goblin_dark";;
  fill_rect img 9 13 2 3 "goblin_dark";;
  fill_rect img 3 7 2 4 "goblin_green";;
  fill_rect img 11 7 2 4 "goblin_green";;
  mret img.

Definition creature_wolf : m ref :=
  img ← new_image;
  fill_rect img 2 7 12 5 "wolf_gray";;
  fill_rect img 11 4 5 5 "wolf_gray";;
  fill_rect img 14 6 2 2 "wolf_dark";;
  draw_pixel img 12 3 "wolf_dark";;
  draw_pixel img 14 3 "wolf_dark";;
  draw_pixel img 13 5 "black";;
  fill_rect img 3 12 2 4 "wolf_dark";;
  fill_rect img 7 12 2 4 "wolf_dark";;
  fill_rect img 11 10 2 4 "wolf_dark";;
  fill_rect img 0 6 3 2 "wolf_gray";;
  mret img.

Definition creature_bear : m ref :=
  img ← new_image;
  fill_rect img 2 5 12 8 "bear_brown";;
  fill_rect img 10 2 6 6 "bear_brown";;
  fill_rect img 13 4 3 3 "bear_dark";;
  draw_pixel img 15 5 "black";;
  fill_rect img 10 1 2 2 "bear_dark";;
  fill_rect img 14 1 2 2 "bear_dark";;
  draw_pixel img 11 3 "black";;
  fill_rect img 3 13 3 3 "bear_dark";;
  fill_rect img 8 13 3 3 "bear_dark";;
  mret img.

Definition creature_giant : m ref :=
  img ← new_image;
  fill_rect img 3 4 10 10 "giant_purple";;
  fill_rect img 5 0 6 5 "giant_purple";;
  draw_pixel img 6 2 (Tuple (255, 255, 128));;
  draw_pixel img 9 2 (Tuple (255, 255, 128));;
  fill_rect img 7 3 2 1 "black";;
  fill_rect img 4 14 3 2 (Tuple (108, 78, 118));;
  fill_rect img 9 14 3 2 (Tuple (108, 78, 118));;
  fill_rect img 1 5 2 6 "giant_purple";;
  fill_rect img 13 5 2 6 "giant_purple";;
  mret img.

Definition creature_undead : m ref :=
  img ← new_image;
  fill_rect img 5 6 6 8 "undead_dark";;
  fill_rect img 5 1 6 6 "undead_pale";;
  fill_rect img 6 2 2 2 "black";;
  fill_rect img 9 2 2 2 "black";;
  draw_pixel img 6 2 (Tuple (158, 255, 158));;
  draw_pixel img 9 2 (Tuple (158, 255, 158));;
  fill_rect img 7 5 2 1 "black";;
  fill_rect img 3 7 2 5 "undead_pale";;
  fill_rect img 11 7 2 5 "undead_pale";;
  fill_rect img 5 14 2 2 "undead_dark";;
  fill_rect img 9 14 2 2 "undead_dark";;
  mret img.

(** Item sprites *)

Definition item_food : m ref :=
  img ← new_image;
  fill_rect img 3 6 10 6 "bread";;
  fill_rect img 4 5 8 2 "bread";;
  fill_rect img 5 6 6 2 (Tuple (238, 198, 118));;
  draw_pixel img 6 7 "wood_med";;
  draw_pixel img 9 7 "wood_med";;
  mret img.

Definition item_drink : m ref :=
  img ← new_image;
  fill_rect img 4 4 8 10 "wood_med";;
  fill_rect img 5 5 6 8 "ale";;
  fill_rect img 12 6 2 6 "wood_dark";;
  fill_rect img 13 7 1 4 "wood_dark";;
  fill_rect img 5 4 6 2 "white";;
  mret img.

Definition item_raw_meat : m ref :=
  img ← new_image;
  fill_rect img 3 5 10 8 "meat_red";;
  fill_rect img 4 4 8 2 "meat_red";;
  fill_rect img 5 7 3 2 "white";;
  fill_rect img 9 9 2 2 "white";;
  fill_rect img 3 11 10 2 "meat_dark";;
  mret img.

Definition item_plant : m ref :=
  img ← new_image;
  fill_rect img 7 6 2 10 "shrub";;
  fill_rect img 4 4 3 4 "plant_green";;
  fill_rect img 9 3 4 3 "plant_green";;
  fill_rect img 5 8 3 3 "plant_green";;
  fill_rect img 10 7 3 3 "plant_green";;
  mret img.

Definition item_bed : m ref :=
  img ← new_image;
  fill_rect img 1 10 14 4 "wood_dark";;
  fill_rect img 2 6 12 5 "fabric_red";;
  fill_rect img 2 4 4 3 "white";;
  fill_rect img 2 8 12 1 (Tuple (148, 48, 48));;
  mret img.

Definition item_table : m ref :=
  img ← new_image;
  fill_rect img 1 5 14 3 "wood_med";;
  fill_rect img 0 5 16 1 "wood_light";;
  fill_rect img 2 8 2 8 "wood_dark";;
  fill_rect img 12 8 2 8 "wood_dark";;
  mret img.

Definition item_chair : m ref :=
  img ← new_image;
  fill_rect img 5 2 6 7 "wood_med";;
  fill_rect img 6 3 4 5 "wood_light";;
  fill_rect img 4 9 8 2 "wood_med";;
  fill_rect img 4 11 2 5 "wood_dark";;
  fill_rect img 10 11 2 5 "wood_dark";;
  mret img.

Definition item_door : m ref :=
  img ← new_image;
  fill_rect img 2 0 12 16 "wood_dark";;
  fill_rect img 3 1 10 6 "wood_med";;
  fill_rect img 3 9 10 6 "wood_med";;
  fill_rect img 10 8 2 2 "metal_light";;
  fill_rect img 3 3 1 2 "metal_dark";;
  fill_rect img 3 11 1 2 "metal_dark";;
  mret img.

Definition item_barrel : m ref :=
  img ← new_image;
  fill_rect img 3 2 10 12 "wood_med";;
  fill_rect img 4 1 8 2 "wood_med";;
  fill_rect img 4 13 8 2 "wood_med";;
  fill_rect img 3 4 10 1 "metal_dark";;
  fill_rect img 3 11 10 1 "metal_dark";;
  for_ [5; 8; 11] (λ x,
    fill_rect img x 2 1 12 "wood_dark");;
  mret img.

Definition item_bin : m ref :=
  img ← new_image;
  fill_rect img 2 5 12 9 "wood_med";;
  fill_rect img 3 6 10 7 "wood_dark";;
  fill_rect img 1 4 14 2 "wood_light";;
  mret img.

Definition item_pickaxe : m ref :=
  img ← new_image;
  fill_rect img 2 3 2 12 "wood_dark";;
  fill_rect img 4 2 10 3 "metal_light";;
  fill_rect img 12 1 3 2 "metal_light";;
  fill_rect img 12 4 3 2 "metal_light";;
  draw_pixel img 14 1 "white";;
  draw_pixel img 14 5 "white";;
  mret img.

Definition item_axe : m ref :=
  img ← new_image;
  fill_rect img 3 3 2 12 "wood_dark";;
  fill_rect img 5 2 6 6 "metal_light";;
  fill_rect img 9 3 4 4 "metal_light";;
  fill_rect img 11 3 2 4 "metal_dark";;
  draw_pixel img 12 4 "white";;
  draw_pixel img 12 5 "white";;
  mret img.

Definition item_log : m ref :=
  img ← new_image;
  fill_rect img 1 5 14 7 "wood_med";;
  fill_rect img 1 5 14 2 "bark";;
  fill_rect img 1 10 14 2 "bark";;
  fill_rect img 13 6 2 5 "wood_light";;
  draw_pixel img 14 8 "wood_dark";;
  mret img.

Definition item_stone : m ref :=
  img ← new_image;
  fill_rect img 3 5 10 8 "stone_med";;
  fill_rect img 4 4 8 2 "stone_med";;
  fill_rect img 5 12 6 2 "stone_med";;
  fill_rect img 5 6 4 3 "stone_light";;
  fill_rect img 9 9 3 3 "stone_dark";;
  mret img.

Definition item_ore : m ref :=
  img ← new_image;
  fill_rect img 3 5 10 8 "stone_dark";;
  fill_rect img 4 4 8 2 "stone_dark";;
  fill_rect img 5 6 3 3 "gold";;
  fill_rect img 9 8 3 3 "gold";;
  draw_pixel img 6 7 "white";;
  draw_pixel img 10 9 "white";;
  mret img.

(** UI sprites *)

Definition ui_selection : m ref :=
  img ← new_image;
  c ← COLORS_get "select_yellow";
  for_ (range 4) (λ i,
    draw_pixel img i 0 (Tuple c);;
    draw_pixel img 0 i (Tuple c));;
  for_ (range 4) (λ i,
    draw_pixel img (15 - i) 0 (Tuple c);;
    draw_pixel img 15 i (Tuple c));;
  for_ (range 4) (λ i,
    draw_pixel img i 15 (Tuple c);;
    draw_pixel img 0 (15 - i) (Tuple c));;
  for_ (range 4) (λ i,
    draw_pixel img (15 - i) 15 (Tuple c);;
    draw_pixel img 15 (15 - i) (Tuple c));;
  mret img.

(** The three dicts of [main], as their items in insertion order. *)
Definition terrain_sprites : list (string * m ref) := [
  ("terrain_empty_air", terrain_empty_air);
  ("terrain_grass", terrain_grass);
  ("terrain_dirt", terrain_dirt);
  ("terrain_stone", terrain_stone);
  ("terrain_water", terrain_water);
  ("terrain_tree", terrain_tree);
  ("terrain_shrub", terrain_shrub);
  ("terrain_wall", terrain_wall);
  ("terrain_ore", terrain_ore);
  ("terrain_wooden_floor", terrain_wooden_floor);
  ("terrain_stone_floor", terrain_stone_floor);
  ("terrain_constructed_wall", terrain_constructed_wall);
  ("terrain_stairs_up", terrain_stairs_up);
  ("terrain_stairs_down", terrain_stairs_down);
  ("terrain_stairs_updown", terrain_stairs_updown);
  ("terrain_ramp_up", terrain_ramp_up);
  ("terrain_ramp_down", terrain_ramp_down)
].

Definition creature_sprites : list (string * m ref) := [
  ("creature_dwarf", creature_dwarf);
  ("creature_goblin", creature_goblin);
  ("creature_wolf", creature_wolf);
  ("creature_bear", creature_bear);
  ("creature_giant", creature_giant);
  ("creature_undead", creature_undead)
].

Definition item_sprites : list (string * m ref) := [
  ("item_food", item_food);
  ("item_drink", item_drink);
  ("item_raw_meat", item_raw_meat);
  ("item_plant", item_plant);
  ("item_bed", item_bed);
  ("item_table", item_table);
  ("item_chair", item_chair);
  ("item_door", item_door);
  ("item_barrel", item_barrel);
  ("item_bin", item_bin);
  ("item_pickaxe", item_pickaxe);
  ("item_axe", item_axe);
  ("item_log", item_log);
  ("item_stone", item_stone);
  ("item_ore", item_ore)
].

(** The 39 drawers, in the order in which [main] runs them. *)
Definition drawers : list (string * m ref) :=
  terrain_sprites ++ creature_sprites ++ item_sprites
  ++ [("ui_selection", ui_selection)].

End Drawers.

(** ** The asset emitter *)

Definition ASSETS_PATH : string := "Outpost/Assets.xcassets".

Definition starts_with_sep (s : string) : bool :=
  match s with
  | String c _ => bool_decide (c = "/"%char)
  | EmptyString => false
  end.

Fixpoint ends_with_sep (s : string) : bool :=
  match s with
  | EmptyString => false
  | String c EmptyString => bool_decide (c = "/"%char)
  | String _ s' => ends_with_sep s'
  end.

(** [os.path.join(a, *p)] of [posixpath]. *)
Definition path_join (a : string) (p : list string) : string :=
  foldl (λ path b,
    if starts_with_sep b then b
    else if bool_decide (path = "") || ends_with_sep path then path +:+ b
    else path +:+ "/" +:+ b) a p.

(** [os.makedirs(path, exist_ok=True)] *)
Definition makedirs (path : string) : M unit := λ w,
  (Ret tt, emit (EMakedirs path) w).

(** [print(line)] *)
Definition print (line : string) : M unit := λ w,
  (Ret tt, emit (EPrint line) w).

(** [with open(path, "w") as f: json.dump(contents, f, indent=2)] *)
Definition dump_json (path : string) (contents : json) : M unit := λ w,
  (Ret tt, emit (EWriteJson path contents) w).

(** Modelled from the spec: [Image.resize] is Pillow's and is not in the
    repository; the spec has [image.resize(size, Image.NEAREST)] as
    nearest-neighbour resampling. The pixel [(X, Y)] of the result is the
    pixel of the source nearest to it: the one that holds the centre of
    [(X, Y)] mapped back to the source, [((X + 1/2) * w / W, (Y + 1/2) * h / H)],
    in exact arithmetic. A resize to the size the image has is a copy. *)
Definition resize_nearest (im : Image) (size : Z * Z) : Image :=
  if decide (im_size im = size) then im
  else
    {| im_size := size;
       im_rows :=
         (λ Y, (λ X,
            default (0, 0, 0, 0)
              (pixel im (((2 * X + 1) * im.(im_size).1) `div` (2 * size.1))
                        (((2 * Y + 1) * im.(im_size).2) `div` (2 * size.2))))
            <$> seqZ 0 size.1)
         <$> seqZ 0 size.2 |}.

(** [image.resize(size, Image.NEAREST)]: a new image object. *)
Definition Image_resize (image : ref) (size : Z * Z) : M ref := λ w,
  match heap w !! image with
  | None => (Raise BadRef, w)
  | Some im => alloc (resize_nearest im size) w
  end.

(** [img.save(path)]: the file receives the pixels the image has now. *)
Definition Image_save (img : ref) (path : string) : M unit := λ w,
  match heap w !! img with
  | None => (Raise BadRef, w)
  | Some im => (Ret tt, emit (ESave path im) w)
  end.

Definition image_entry (filename scale : string) : json :=
  JDict [("filename", JStr filename); ("idiom", JStr "universal");
         ("scale", JStr scale)].

Definition create_imageset (name category : string) (image : ref) : M unit :=
  let folder_path := path_join ASSETS_PATH [category; name +:+ ".imageset"] in
  makedirs folder_path;;
  for_ [1; 2; 3] (λ scale,
    let scaled_size := TILE_SIZE * scale in
    scaled_img ← Image_resize image (scaled_size, scaled_size);
    let suffix := if scale =? 1 then "" else "@" +:+ pretty scale +:+ "x" in
    Image_save scaled_img (path_join folder_path [name +:+ suffix +:+ ".png"]));;
  let contents :=
    JDict [
      ("images", JList [
         image_entry (name +:+ ".png") "1x";
         image_entry (name +:+ "@2x.png") "2x";
         image_entry (name +:+ "@3x.png") "3x"]);
      ("info", JDict [("author", JStr "xcode"); ("version", JInt 1)])] in
  dump_json (path_join folder_path ["Contents.json"]) contents.

Definition create_folder_contents (path : string) : M unit :=
  let contents :=
    JDict [
      ("info", JDict [("author", JStr "xcode"); ("version", JInt 1)]);
      ("properties", JDict [("provides-namespace", JBool true)])] in
  dump_json (path_join path ["Contents.json"]) contents.

(** ** The driver *)

Definition main : M unit :=
  for_ ["Terrain"; "Creatures"; "Items"; "UI"] (λ category,
    let path := path_join ASSETS_PATH [category] in
    makedirs path;;
    create_folder_contents path);;
  for_ terrain_sprites (λ '(name, func),
    print ("Generating " +:+ name +:+ "...");;
    image ← func;
    create_imageset name "Terrain" image);;
  for_ creature_sprites (λ '(name, func),
    print ("Generating " +:+ name +:+ "...");;
    image ← func;
    create_imageset name "Creatures" image);;
  for_ item_sprites (λ '(name, func),
    print ("Generating " +:+ name +:+ "...");;
    image ← func;
    create_imageset name "Items" image);;
  print "Generating ui_selection...";;
  image ← ui_selection;
  create_imageset "ui_selection" "UI" image;;
  print (String "010" "Done! Generated all sprites in Assets.xcassets").

(** The world in which the script starts: no object, nothing done yet. *)
Definition w0 : world := {| heap := []; trace := [] |}.


(** ** Notions used in the statements *)

(** A canvas: a 16x16 image that has all its pixels. *)
Definition is_canvas (im : Image) : Prop :=
  im_size im = (TILE_SIZE, TILE_SIZE) ∧
  length (im_rows im) = 16%nat ∧
  Forall (λ row, length row = 16%nat) (im_rows im).

(** The world with one image object and nothing else. *)
Definition single (im : Image) : world := {| heap := [im]; trace := [] |}.

Definition cell0 (d : Image) (w : world) : Image := default d (heap w !! 0%nat).

Definition upd (r : ref) (im : Image) (w : world) : world :=
  set_heap (<[r := im]> (heap w)) w.

(** A computation on an image object is local when, in every world, it does
    to the object and returns what it does and returns when the object is
    alone in the world, and touches nothing else. *)
Definition Local {A} (m : ref → M A) : Prop :=
  ∀ w r im, heap w !! r = Some im →
    m r w = ((m 0%nat (single im)).1, upd r (cell0 im (m 0%nat (single im)).2) w).

Definition as_ref {A} (r : ref) (o : outcome A) : outcome ref :=
  match o with
  | Ret _ => Ret r
  | Raise e => Raise e
  end.

(** The same for a computation that returns the object it works on. *)
Definition LocalR (m : ref → M ref) : Prop :=
  ∀ w r im, heap w !! r = Some im →
    m r w = (as_ref r (m 0%nat (single im)).1,
             upd r (cell0 im (m 0%nat (single im)).2) w).

(** The shape of every drawer: make a new image, work on it, return it. *)
Definition Drawer (d : M ref) : Prop :=
  ∃ body, d = new_image ≫= body ∧ LocalR body.

(** The canvas a drawer returns when run in the starting world. *)
Definition canvas_of (d : M ref) : option Image :=
  match d w0 with
  | (Ret r, w) => heap w !! r
  | (Raise _, _) => None
  end.

Definition blank_canvas : Image := blank (TILE_SIZE, TILE_SIZE) (0, 0, 0, 0).

(** The triple that a color argument denotes, if it denotes one. *)
Definition color_value (c : color) : option rgb :=
  match c with
  | Name s => COLORS !! s
  | Tuple c => Some c
  end.

Definition on_canvas (x y : Z) : Prop :=
  0 ≤ x < TILE_SIZE ∧ 0 ≤ y < TILE_SIZE.

Global Instance on_canvas_dec x y : Decision (on_canvas x y).
Proof. unfold on_canvas. apply _. Defined.

(** What a successful [draw_pixel] does to the image value. *)
Definition paint (v : rgba) (im : Image) (p : Z * Z) : Image :=
  if decide (on_canvas p.1 p.2) then set_pixel_im im p.1 p.2 v else im.

(** The coordinates of the rectangle [[x, x+w) × [y, y+h)], row after row. *)
Definition rectangle (x y w h : Z) : list (Z * Z) :=
  py ← range2 y (y + h); (λ px, (px, py)) <$> range2 x (x + w).

(** Applying [draw_pixel] to each coordinate of a list, in order. *)
Definition draw_pixel_each (img : ref) (ps : list (Z * Z)) (color : color) : M unit :=
  for_ ps (λ p, Run.draw_pixel img p.1 p.2 color).

(** In every world, [d] returns a new image object that holds [im], and
    changes nothing else. *)
Definition returns (d : M ref) (im : Image) : Prop :=
  ∀ w, d w = (Ret (length (heap w)), set_heap (heap w ++ [im]) w).

(** The color names among the color arguments that a drawer passes. *)
Definition names_passed (d : Calls ref) : list string :=
  omap (λ c, match c with Name s => Some s | Tuple _ => None end) d.2.

Definition pixels (im : Image) : list rgba := concat (im_rows im).

Definition alpha (p : rgba) : Z := p.2.

Definition transparent (p : rgba) : Prop := p = (0, 0, 0, 0).
Definition opaque (p : rgba) : Prop := alpha p = 255.

Global Instance transparent_dec p : Decision (transparent p).
Proof. unfold transparent. apply _. Defined.
Global Instance opaque_dec p : Decision (opaque p).
Proof. unfold opaque. apply _. Defined.

Definition count (P : rgba → Prop) `{!∀ p, Decision (P p)} (im : Image) : nat :=
  length (filter P (pixels im)).

(** No partial opacity in an image, and in any image of a world. *)
Definition solid (im : Image) : Prop :=
  Forall (λ p, transparent p ∨ opaque p) (pixels im).

Definition all_solid (w : world) : Prop := Forall solid (heap w).

Global Instance is_canvas_dec im : Decision (is_canvas im).
Proof. unfold is_canvas. apply _. Defined.
Global Instance solid_dec im : Decision (solid im).
Proof. unfold solid. apply _. Defined.

(** A drawer run in the starting world returns normally, a canvas without
    partial opacity, and leaves nothing else behind. *)
Definition drawer_check (d : M ref) : bool :=
  match d w0 with
  | (Ret 0%nat, {| heap := [im]; trace := [] |}) =>
      bool_decide (is_canvas im) && bool_decide (solid im)
  | _ => false
  end.

(** What a computation appends to the trace of a world. *)
Definition events_of {A} (m : M A) (w : world) : list event :=
  drop (length (trace w)) (trace (m w).2).

(** The folder of a sprite and the path of a file in it. *)
Definition imageset_folder (name category : string) : string :=
  path_join ASSETS_PATH [category; name +:+ ".imageset"].

Definition imageset_file (name category file : string) : string :=
  path_join (imageset_folder name category) [file].

(** The [contents] that [create_imageset] dumps. *)
Definition imageset_contents (name : string) : json :=
  JDict [
    ("images", JList [
       image_entry (name +:+ ".png") "1x";
       image_entry (name +:+ "@2x.png") "2x";
       image_entry (name +:+ "@3x.png") "3x"]);
    ("info", JDict [("author", JStr "xcode"); ("version", JInt 1)])].

(** The images that [create_imageset] makes of an image, and what it does
    to the environment. *)
Definition scaled (im : Image) (scale : Z) : Image :=
  resize_nearest im (TILE_SIZE * scale, TILE_SIZE * scale).

Definition imageset_events (name category : string) (im : Image) : list event := [
  EMakedirs (imageset_folder name category);
  ESave (imageset_file name category (name +:+ ".png")) (scaled im 1);
  ESave (imageset_file name category (name +:+ "@2x.png")) (scaled im 2);
  ESave (imageset_file name category (name +:+ "@3x.png")) (scaled im 3);
  EWriteJson (imageset_file name category "Contents.json") (imageset_contents name)
].

(** Reading a descriptor back: the value of a key of a JSON object, and the
    [(filename, idiom, scale)] entries of the list under ["images"]. *)
Definition json_get (k : string) (j : json) : option json :=
  match j with
  | JDict l =>
      (λ r : nat * (string * json), r.2.2) <$> list_find (λ kv, kv.1 = k) l
  | _ => None
  end.

Definition json_str (j : json) : option string :=
  match j with
  | JStr s => Some s
  | _ => None
  end.

Definition descriptor_images (j : json) : option (list (string * string * string)) :=
  match json_get "images" j with
  | Some (JList l) =>
      mapM (λ e,
        f ← json_get "filename" e ≫= json_str;
        i ← json_get "idiom" e ≫= json_str;
        s ← json_get "scale" e ≫= json_str;
        Some (f, i, s)) l
  | _ => None
  end.

Definition last_char (s : string) : option ascii :=
  match String.rev s with
  | String c _ => Some c
  | EmptyString => None
  end.

(** The canvas of a drawer, for a drawer that returns one. *)
Definition the_canvas (d : M ref) : Image := default blank_canvas (canvas_of d).

(** The [contents] that [create_folder_contents] dumps. *)
Definition folder_contents : json :=
  JDict [
    ("info", JDict [("author", JStr "xcode"); ("version", JInt 1)]);
    ("properties", JDict [("provides-namespace", JBool true)])].

Definition category_folder (category : string) : string :=
  path_join ASSETS_PATH [category].

(** What [main] does to the environment, part by part: the scaffolding of
    the categories, the sprites of a catalog, and the whole run. *)
Definition scaffold_events : list event :=
  category ← ["Terrain"; "Creatures"; "Items"; "UI"];
  [EMakedirs (category_folder category);
   EWriteJson (path_join (category_folder category) ["Contents.json"]) folder_contents].

Definition sprite_events (name category : string) (im : Image) : list event :=
  EPrint ("Generating " +:+ name +:+ "...") :: imageset_events name category im.

Definition sprite_objects (im : Image) : list Image :=
  [im; scaled im 1; scaled im 2; scaled im 3].

Definition catalog_events (category : string) (l : list (string * M ref)) : list event :=
  nd ← l; sprite_events nd.1 category (the_canvas nd.2).

Definition catalog_objects (l : list (string * M ref)) : list Image :=
  nd ← l; sprite_objects (the_canvas nd.2).

Definition main_events : list event :=
  scaffold_events
  ++ catalog_events "Terrain" terrain_sprites
  ++ catalog_events "Creatures" creature_sprites
  ++ catalog_events "Items" item_sprites
  ++ sprite_events "ui_selection" "UI" (the_canvas ui_selection)
  ++ [EPrint (String "010" "Done! Generated all sprites in Assets.xcassets")].

Definition main_objects : list Image :=
  catalog_objects terrain_sprites ++ catalog_objects creature_sprites
  ++ catalog_objects item_sprites ++ sprite_objects (the_canvas ui_selection).

(** An event without the contents that it carries. *)
Inductive op : Type :=
  | OMakedirs (path : string)
  | OSave (path : string)
  | OWriteJson (path : string)
  | OPrint (line : string).

Global Instance op_eq_dec : EqDecision op.
Proof. solve_decision. Defined.

Definition op_of (e : event) : op :=
  match e with
  | EMakedirs p => OMakedirs p
  | ESave p _ => OSave p
  | EWriteJson p _ => OWriteJson p
  | EPrint l => OPrint l
  end.

Definition op_path (o : op) : option string :=
  match o with
  | OMakedirs p | OSave p | OWriteJson p => Some p
  | OPrint _ => None
  end.

(** The operation [o] makes or writes something below the directory [dir]. *)
Definition below (dir : string) (o : op) : Prop :=
  match op_path o with
  | Some p => String.prefix (dir +:+ "/") p = true
  | None => False
  end.

Global Instance below_dec dir o : Decision (below dir o).
Proof. unfold below. destruct (op_path o); apply _. Defined.

(** The sprites in the order of [main], each with its category. *)
Definition catalog : list (string * string) :=
  ((λ nd : string * M ref, (nd.1, "Terrain")) <$> terrain_sprites)
  ++ ((λ nd : string * M ref, (nd.1, "Creatures")) <$> creature_sprites)
  ++ ((λ nd : string * M ref, (nd.1, "Items")) <$> item_sprites)
  ++ [("ui_selection", "UI")].

Definition scaffold_ops : list op :=
  category ← ["Terrain"; "Creatures"; "Items"; "UI"];
  [OMakedirs (category_folder category);
   OWriteJson (path_join (category_folder category) ["Contents.json"])].

Definition sprite_ops (sprite : string * string) : list op :=
  let '(name, category) := sprite in
  [OPrint ("Generating " +:+ name +:+ "...");
   OMakedirs (imageset_folder name category);
   OSave (imageset_file name category (name +:+ ".png"));
   OSave (imageset_file name category (name +:+ "@2x.png"));
   OSave (imageset_file name category (name +:+ "@3x.png"));
   OWriteJson (imageset_file name category "Contents.json")].

(** The images saved at a path, in the order of the saves. *)
Definition saved_at (path : string) (evs : list event) : list Image :=
  omap (λ e, match e with
             | ESave p i => if decide (p = path) then Some i else None
             | _ => None
             end) evs.

(** ** Further notions *)

(** The rectangle [[x, x+w) × [y, y+h)] has a coordinate on the canvas. *)
Definition meets_canvas (x y w h : Z) : Prop :=
  0 < w ∧ 0 < h ∧ 0 < x + w ∧ x < TILE_SIZE ∧ 0 < y + h ∧ y < TILE_SIZE.

Global Instance meets_canvas_dec x y w h : Decision (meets_canvas x y w h).
Proof. unfold meets_canvas. apply _. Defined.

(** The path of a file that an operation writes. *)
Definition file_written (o : op) : option string :=
  match o with
  | OSave p | OWriteJson p => Some p
  | OMakedirs _ | OPrint _ => None
  end.

(** The path of an image that an operation saves. *)
Definition image_saved (o : op) : option string :=
  match o with
  | OSave p => Some p
  | _ => None
  end.

Global Instance Image_eq_dec : EqDecision Image.
Proof. solve_decision. Defined.

(** The sprites of [main], each with its category and its drawer. *)
Definition sprites : list (string * string * M ref) :=
  ((λ nd : string * M ref, (nd.1, "Terrain", nd.2)) <$> terrain_sprites)
  ++ ((λ nd : string * M ref, (nd.1, "Creatures", nd.2)) <$> creature_sprites)
  ++ ((λ nd : string * M ref, (nd.1, "Items", nd.2)) <$> item_sprites)
  ++ [("ui_selection", "UI", ui_selection)].

(** A pixel of four 8-bit channels. *)
Definition byte_pixel (p : rgba) : Prop :=
  let '(r, g, b, a) := p in
  0 ≤ r ≤ 255 ∧ 0 ≤ g ≤ 255 ∧ 0 ≤ b ≤ 255 ∧ 0 ≤ a ≤ 255.

Global Instance byte_pixel_dec p : Decision (byte_pixel p).
Proof. destruct p as [[[r g] b] a]. unfold byte_pixel. apply _. Defined.

Definition byte_color (c : rgb) : Prop := byte_pixel (with_alpha c 255).

Global Instance byte_color_dec c : Decision (byte_color c).
Proof. unfold byte_color. apply _. Defined.

(** The image that an event saves, with its path. *)
Definition save_of (e : event) : option (string * Image) :=
  match e with
  | ESave p i => Some (p, i)
  | _ => None
  end.

(** The three files of a sprite, each with the image it is to hold. *)
Definition sprite_files (sprite : string * string * M ref) : list (string * Image) :=
  let '(name, category, d) := sprite in
  let im := the_canvas d in
  [(imageset_file name category (name +:+ ".png"), im);
   (imageset_file name category (name +:+ "@2x.png"), scaled im 2);
   (imageset_file name category (name +:+ "@3x.png"), scaled im 3)].

Definition bytes_image (im : Image) : Prop := Forall byte_pixel (pixels im).

Definition all_bytes (w : world) : Prop := Forall bytes_image (heap w).

Global Instance bytes_image_dec im : Decision (bytes_image im).
Proof. unfold bytes_image. apply _. Defined.

(** The names that the drawers pass, all together. *)
Definition names_in_use : list string :=
  (drawers : list (string * Calls ref)) ≫= (λ nd, names_passed nd.2).

(** ** Locality of the canvas primitives *)

Lemma set_heap_id w : set_heap (heap w) w = w.
Proof. by destruct w. Qed.

Lemma upd_id w r im : heap w !! r = Some im → upd r im w = w.
Proof. intros H. unfold upd. rewrite list_insert_id; [apply set_heap_id | done]. Qed.

Lemma upd_upd w r im im' : upd r im' (upd r im w) = upd r im' w.
Proof. unfold upd, set_heap. simpl. by rewrite list_insert_insert_eq. Qed.

Lemma upd_lookup w r im im' :
  heap w !! r = Some im → heap (upd r im' w) !! r = Some im'.
Proof.
  intros H. simpl. apply list_lookup_insert_eq. by eapply lookup_lt_Some.
Qed.

Lemma upd_single im im' : upd 0%nat im' (single im) = single im'.
Proof. reflexivity. Qed.

Lemma Local_single {A} (m : ref → M A) im :
  Local m → m 0%nat (single im) =
    ((m 0%nat (single im)).1, single (cell0 im (m 0%nat (single im)).2)).
Proof. intros H. by rewrite (H (single im) 0%nat im) at 1. Qed.

Lemma LocalR_single (m : ref → M ref) im :
  LocalR m → (m 0%nat (single im)).2 = single (cell0 im (m 0%nat (single im)).2).
Proof. intros H. by rewrite (H (single im) 0%nat im) at 1. Qed.

Lemma Local_ret {A} (a : A) : Local (λ _, mret a).
Proof. intros w r im H. cbn. by rewrite upd_id. Qed.

Lemma Local_COLORS_get k : Local (λ _, Run.COLORS_get k).
Proof.
  intros w r im H. unfold Run.COLORS_get.
  destruct (COLORS !! k); cbn; by rewrite upd_id.
Qed.

Lemma Local_bind {A B} (m : ref → M A) (k : A → ref → M B) :
  Local m → (∀ a, Local (k a)) → Local (λ r, m r ≫= λ a, k a r).
Proof.
  intros Hm Hk w r im H. unfold mbind, M_bind.
  rewrite (Hm w r im H).
  pose proof (Local_single m im Hm) as Hs.
  destruct (m 0%nat (single im)) as [o w1]. simpl in *.
  assert (∃ im1, w1 = single im1 ∧ cell0 im w1 = im1) as (im1 & -> & ->).
  { exists (cell0 im w1). split; [congruence | done]. }
  clear Hs. destruct o as [a|e]; [|done].
  rewrite (Hk a (upd r im1 w) r im1 (upd_lookup _ _ _ _ H)).
  rewrite upd_upd. f_equal. f_equal.
  rewrite (Local_single (k a) im1 (Hk a)). reflexivity.
Qed.

Lemma LocalR_ret : LocalR (λ r, mret r).
Proof. intros w r im H. cbn. by rewrite upd_id. Qed.

Lemma LocalR_bind {A} (m : ref → M A) (k : A → ref → M ref) :
  Local m → (∀ a, LocalR (k a)) → LocalR (λ r, m r ≫= λ a, k a r).
Proof.
  intros Hm Hk w r im H. unfold mbind, M_bind.
  rewrite (Hm w r im H).
  pose proof (Local_single m im Hm) as Hs.
  destruct (m 0%nat (single im)) as [o w1]. simpl in *.
  assert (∃ im1, w1 = single im1 ∧ cell0 im w1 = im1) as (im1 & -> & ->).
  { exists (cell0 im w1). split; [congruence | done]. }
  clear Hs. destruct o as [a|e]; [|done].
  rewrite (Hk a (upd r im1 w) r im1 (upd_lookup _ _ _ _ H)).
  rewrite upd_upd. f_equal. f_equal.
  rewrite (LocalR_single (k a) im1 (Hk a)). reflexivity.
Qed.

Lemma Local_if {A} (b : bool) (m1 m2 : ref → M A) :
  Local m1 → Local m2 → Local (λ r, if b then m1 r else m2 r).
Proof. by destruct b. Qed.

Lemma Local_for {A} (xs : list A) (body : A → ref → M unit) :
  (∀ x, Local (body x)) → Local (λ r, for_ xs (λ x, body x r)).
Proof.
  intros Hb. induction xs as [|x xs IH]; simpl.
  - apply Local_ret.
  - apply (Local_bind (body x) (λ _ r, for_ xs (λ x, body x r))); auto.
Qed.

Lemma Local_putpixel xy v : Local (λ r, putpixel r xy v).
Proof.
  intros w r im H. unfold putpixel. rewrite H. cbn.
  case_match; cbn; [done|]. by rewrite upd_id.
Qed.

Lemma Local_draw_pixel x y c : Local (λ r, Run.draw_pixel r x y c).
Proof.
  unfold Run.draw_pixel. apply Local_if; [|apply Local_ret].
  apply (Local_bind (λ _, match c with Name s => Run.COLORS_get s | Tuple c => mret c end)
                    (λ c r, putpixel r (x, y) (with_alpha c 255))).
  - destruct c; [apply Local_COLORS_get | apply Local_ret].
  - intros a. apply Local_putpixel.
Qed.

Lemma Local_fill_rect x y w h c : Local (λ r, Run.fill_rect r x y w h c).
Proof.
  unfold Run.fill_rect.
  apply (Local_for _ (λ py r, for_ (range2 x (x + w)) (λ px, Run.draw_pixel r px py c))).
  intros py. apply (Local_for _ (λ px r, Run.draw_pixel r px py c)).
  intros px. apply Local_draw_pixel.
Qed.

Ltac local_step :=
  lazymatch goal with
  | |- ∀ _, _ => let x := fresh "x" in intros x; try destruct x; cbv beta iota zeta
  | |- Local (λ r, draw_pixel r _ _ _) => apply Local_draw_pixel
  | |- Local (λ r, fill_rect r _ _ _ _ _) => apply Local_fill_rect
  | |- Local (λ _, COLORS_get _) => apply Local_COLORS_get
  | |- Local (λ _, mret _) => apply Local_ret
  | |- Local (λ r, for_ _ _) => apply Local_for
  | |- Local (λ r, if _ then _ else _) => apply Local_if
  | |- Local (λ r, _ ≫= _) => apply Local_bind
  | |- LocalR (λ r, mret r) => apply LocalR_ret
  | |- LocalR (λ r, _ ≫= _) => apply LocalR_bind
  end.

Ltac solve_drawer :=
  eexists; split; [reflexivity | repeat local_step].

Lemma drawers_Drawer : Forall (λ nd : string * M ref, Drawer nd.2) drawers.
Proof.
  unfold drawers, terrain_sprites, creature_sprites, item_sprites; simpl.
  repeat (apply Forall_cons; split; [solve_drawer|]).
  apply Forall_nil_2.
Qed.

(** ** The canvas primitives on a canvas *)

Lemma is_canvas_blank : is_canvas blank_canvas.
Proof. repeat split. repeat constructor. Qed.

Lemma guard_on_canvas x y :
  ((0 <=? x) && (x <? TILE_SIZE) && (0 <=? y) && (y <? TILE_SIZE)) = bool_decide (on_canvas x y).
Proof.
  unfold on_canvas. case_bool_decide as H.
  - destruct H as [[??] [??]].
    repeat (apply andb_true_intro; split); lia.
  - apply not_true_is_false. intros Ht. apply H.
    repeat (apply andb_prop in Ht as [Ht ?]). lia.
Qed.

Lemma is_canvas_set_pixel_im im x y v : is_canvas im → is_canvas (set_pixel_im im x y v).
Proof.
  intros (Hs & Hl & Hr). repeat split; simpl; [done | by rewrite length_alter |].
  apply Forall_alter; [done|]. intros row _ Hrow. by rewrite length_insert.
Qed.

Lemma pixel_canvas im x y :
  is_canvas im → on_canvas x y → is_Some (pixel im x y).
Proof.
  intros (Hs & Hl & Hr) Hxy. unfold pixel. rewrite Hs. simpl.
  rewrite guard_on_canvas, bool_decide_eq_true_2 by done.
  destruct Hxy as [Hx Hy]. unfold TILE_SIZE in *.
  destruct (lookup_lt_is_Some_2 (im_rows im) (Z.to_nat y)) as [row Hrow]; [lia|].
  rewrite Hrow. simpl.
  apply lookup_lt_is_Some_2.
  rewrite Forall_forall in Hr. rewrite (Hr row); [lia|].
  by eapply list_elem_of_lookup_2.
Qed.

Lemma pixel_off_canvas im x y :
  is_canvas im → ¬ on_canvas x y → pixel im x y = None.
Proof.
  intros (Hs & _) Hxy. unfold pixel. rewrite Hs. simpl.
  by rewrite guard_on_canvas, bool_decide_eq_false_2.
Qed.

Lemma pixel_set_pixel_im im x y v i j :
  is_canvas im → on_canvas x y →
  pixel (set_pixel_im im x y v) i j =
    if decide (i = x ∧ j = y) then Some v else pixel im i j.
Proof.
  intros Hc Hxy.
  destruct (decide (on_canvas i j)) as [Hij|Hij].
  2:{ rewrite !pixel_off_canvas; [|done..|by apply is_canvas_set_pixel_im|done].
      case_decide as H; [|done]. destruct H as [-> ->]. done. }
  pose proof (pixel_canvas im i j Hc Hij) as [p Hp].
  destruct Hc as (Hs & Hl & Hr). revert Hp. unfold pixel, set_pixel_im. simpl.
  rewrite Hs. simpl. rewrite guard_on_canvas, bool_decide_eq_true_2 by done.
  destruct Hxy as [Hx Hy], Hij as [Hi Hj]. unfold TILE_SIZE in *.
  destruct (decide (j = y)) as [->|Hne].
  - rewrite list_lookup_alter_eq.
    destruct (im_rows im !! Z.to_nat y) as [row|] eqn:Hrow; simpl; [|done].
    intros Hp. destruct (decide (i = x)) as [->|Hne].
    + rewrite decide_True by done. apply list_lookup_insert_eq.
      by eapply lookup_lt_Some.
    + rewrite decide_False by tauto. rewrite list_lookup_insert_ne; [done|lia].
  - rewrite list_lookup_alter_ne by lia. rewrite decide_False by tauto. done.
Qed.

Lemma is_canvas_paint v im p : is_canvas im → is_canvas (paint v im p).
Proof. intros H. unfold paint. case_decide; [by apply is_canvas_set_pixel_im|done]. Qed.

Lemma pixel_paint v im p i j :
  is_canvas im →
  pixel (paint v im p) i j =
    if decide (on_canvas i j ∧ (i, j) = p) then Some v else pixel im i j.
Proof.
  intros Hc. destruct p as [x y]. unfold paint. simpl. case_decide as Hxy.
  - rewrite pixel_set_pixel_im by done.
    case_decide as H1; case_decide as H2; try done.
    + destruct H1 as [-> ->]. by destruct H2.
    + destruct H2 as [_ [= -> ->]]. by destruct H1.
  - rewrite decide_False; [done|]. intros [? [= -> ->]]. done.
Qed.

Lemma draw_pixel_off w img x y color :
  ¬ on_canvas x y → Run.draw_pixel img x y color w = (Ret tt, w).
Proof.
  intros H. unfold Run.draw_pixel.
  by rewrite guard_on_canvas, bool_decide_eq_false_2.
Qed.

Lemma draw_pixel_undefined w img x y k :
  COLORS !! k = None → on_canvas x y →
  Run.draw_pixel img x y (Name k) w = (Raise (KeyError k), w).
Proof.
  intros Hk H. unfold Run.draw_pixel, Run.COLORS_get.
  rewrite guard_on_canvas, bool_decide_eq_true_2 by done.
  by rewrite Hk.
Qed.

Lemma draw_pixel_run w img im x y color c :
  heap w !! img = Some im → is_canvas im → color_value color = Some c →
  Run.draw_pixel img x y color w
  = (Ret tt, upd img (paint (with_alpha c 255) im (x, y)) w).
Proof.
  intros Him Hc Hcol. unfold paint. simpl. case_decide as Hxy.
  2:{ rewrite draw_pixel_off by done. by rewrite upd_id. }
  unfold Run.draw_pixel. rewrite guard_on_canvas, bool_decide_eq_true_2 by done.
  assert (match color with
          | Name s => Run.COLORS_get s
          | Tuple c => mret c
          end = mret c) as ->.
  { destruct color as [s|c']; simpl in Hcol; [|congruence].
    unfold Run.COLORS_get. by rewrite Hcol. }
  unfold mbind, M_bind, mret, M_ret, putpixel. rewrite Him.
  destruct Hc as (Hs & _). rewrite Hs. simpl.
  destruct Hxy as [Hx Hy]. unfold TILE_SIZE in *.
  rewrite (proj2 (Z.ltb_ge x 0)), (proj2 (Z.ltb_ge y 0)) by lia.
  rewrite (proj2 (Z.leb_le 0 x)), (proj2 (Z.leb_le 0 y)) by lia.
  rewrite (proj2 (Z.ltb_lt x 16)), (proj2 (Z.ltb_lt y 16)) by lia.
  reflexivity.
Qed.

Lemma is_canvas_foldl_paint v ps im : is_canvas im → is_canvas (foldl (paint v) im ps).
Proof.
  revert im. induction ps as [|p ps IH]; intros im H; simpl; [done|].
  apply IH. by apply is_canvas_paint.
Qed.

Lemma pixel_foldl_paint v ps im i j :
  is_canvas im →
  pixel (foldl (paint v) im ps) i j =
    if decide (on_canvas i j ∧ (i, j) ∈ ps) then Some v else pixel im i j.
Proof.
  revert im. induction ps as [|p ps IH]; intros im Hc; simpl.
  - rewrite decide_False; [done|]. intros [_ H]. by apply not_elem_of_nil in H.
  - rewrite IH by (by apply is_canvas_paint). rewrite pixel_paint by done.
    destruct (decide (on_canvas i j ∧ (i, j) ∈ ps)) as [[H1 H2]|H].
    + rewrite decide_True; [done|]. split; [done|]. by apply list_elem_of_further.
    + destruct (decide (on_canvas i j ∧ (i, j) = p)) as [[H1 <-]|H'].
      * rewrite decide_True; [done|]. split; [done|]. apply list_elem_of_here.
      * rewrite decide_False; [done|]. intros [H1 H2].
        apply elem_of_cons in H2 as [H2|H2]; tauto.
Qed.

Lemma draw_pixel_each_run img color c ps : ∀ w im,
  heap w !! img = Some im → is_canvas im → color_value color = Some c →
  draw_pixel_each img ps color w
  = (Ret tt, upd img (foldl (paint (with_alpha c 255)) im ps) w).
Proof.
  unfold draw_pixel_each.
  induction ps as [|[x y] ps IH]; intros w im Him Hc Hcol; simpl.
  - unfold mret, M_ret. by rewrite upd_id.
  - unfold mbind, M_bind. simpl.
    rewrite (draw_pixel_run w img im x y color c) by done.
    rewrite (IH _ (paint (with_alpha c 255) im (x, y)));
      [|by eapply upd_lookup|by apply is_canvas_paint|done].
    by rewrite upd_upd.
Qed.

(** ** Loops *)

Lemma bind_ext {A B} (m : M A) (k1 k2 : A → M B) w :
  (∀ a w', k1 a w' = k2 a w') → (m ≫= k1) w = (m ≫= k2) w.
Proof.
  intros H. unfold mbind, M_bind. destruct (m w) as [[a|e] w']; [apply H|done].
Qed.

Lemma for_ext {A} (xs : list A) (f g : A → M unit) :
  (∀ a w, f a w = g a w) → ∀ w, for_ xs f w = for_ xs g w.
Proof.
  intros H. induction xs as [|x xs IH]; intros w; simpl; [done|].
  unfold mbind, M_bind. rewrite H. destruct (g x w) as [[[]|e] w']; [apply IH|done].
Qed.

Lemma for_fmap {A B} (g : A → B) (xs : list A) (f : B → M unit) w :
  for_ (g <$> xs) f w = for_ xs (λ a, f (g a)) w.
Proof.
  revert w. induction xs as [|x xs IH]; intros w; simpl; [done|].
  apply bind_ext. intros _ w'. apply IH.
Qed.

Lemma for_app {A} (xs ys : list A) (f : A → M unit) w :
  for_ (xs ++ ys) f w = (for_ xs f ;; for_ ys f) w.
Proof.
  revert w. induction xs as [|x xs IH]; intros w; simpl; [done|].
  unfold mbind, M_bind in *. destruct (f x w) as [[[]|e] w']; [apply IH|done].
Qed.

Lemma for_bind {A B} (g : A → list B) (xs : list A) (f : B → M unit) w :
  for_ (xs ≫= g) f w = for_ xs (λ a, for_ (g a) f) w.
Proof.
  revert w. induction xs as [|x xs IH]; intros w; simpl; [done|].
  rewrite for_app. apply bind_ext. intros _ w'. apply IH.
Qed.

Lemma fill_rect_each img x y w h color wd :
  Run.fill_rect img x y w h color wd
  = draw_pixel_each img (rectangle x y w h) color wd.
Proof.
  unfold Run.fill_rect, draw_pixel_each, rectangle.
  rewrite for_bind. apply for_ext. intros py w'.
  by rewrite for_fmap.
Qed.

Lemma elem_of_rectangle x y w h i j :
  (i, j) ∈ rectangle x y w h ↔ x ≤ i < x + w ∧ y ≤ j < y + h.
Proof.
  unfold rectangle, range2. rewrite list_elem_of_bind. split.
  - intros (py & Hi & Hpy). apply list_elem_of_fmap in Hi as (px & [= -> ->] & Hpx).
    apply elem_of_seqZ in Hpx, Hpy. lia.
  - intros [Hi Hj]. exists j. split.
    + apply list_elem_of_fmap. exists i. split; [done|]. apply elem_of_seqZ. lia.
    + apply elem_of_seqZ. lia.
Qed.

Lemma draw_pixel_each_undefined img k ps w :
  COLORS !! k = None →
  draw_pixel_each img ps (Name k) w
  = (if decide (Exists (λ p, on_canvas p.1 p.2) ps)
     then Raise (KeyError k) else Ret tt, w).
Proof.
  intros Hk. unfold draw_pixel_each.
  induction ps as [|[x y] ps IH].
  - rewrite decide_False; [done|]. by intros H%Exists_nil.
  - cbn [for_]. unfold mbind, M_bind. cbn [fst snd].
    destruct (decide (on_canvas x y)) as [Hxy|Hxy].
    + rewrite draw_pixel_undefined by done.
      rewrite decide_True; [done|]. by apply Exists_cons_hd.
    + rewrite draw_pixel_off by done. unfold mbind, M_bind in IH. rewrite IH.
      f_equal. apply decide_ext. rewrite Exists_cons. simpl. tauto.
Qed.

(** C4. [draw_pixel] (the spec's [set_pixel]) clips: at a coordinate off
    the canvas it returns normally and leaves the world, so every pixel of
    every image, as it was, whatever the image and the color argument are;
    at a coordinate on the canvas, for a color argument that denotes a
    triple [c] (a literal triple, or a name of the palette), it returns
    normally and changes only the image it is given, in which exactly the
    pixel [(x, y)] is overwritten, with [c] at alpha 255. *)
Theorem draw_pixel_clips (w : world) (img : ref) (x y : Z) (color : color) :
  (¬ on_canvas x y → Run.draw_pixel img x y color w = (Ret tt, w)) ∧
  (on_canvas x y →
   ∀ im c, heap w !! img = Some im → is_canvas im → color_value color = Some c →
     ∃ im', Run.draw_pixel img x y color w = (Ret tt, upd img im' w) ∧
       is_canvas im' ∧
       ∀ i j, pixel im' i j =
         if decide (i = x ∧ j = y) then Some (with_alpha c 255) else pixel im i j).
Proof.
  split; [apply draw_pixel_off|].
  intros Hxy im c Him Hc Hcol.
  exists (set_pixel_im im x y (with_alpha c 255)). split; [|split].
  - rewrite (draw_pixel_run w img im x y color c) by done.
    unfold paint. simpl. by rewrite decide_True.
  - by apply is_canvas_set_pixel_im.
  - intros i j. by apply pixel_set_pixel_im.
Qed.

Lemma draw_pixel_clips_witness :
  Run.draw_pixel 0%nat 16 3 (Name "no_such_color") (single blank_canvas)
    = (Ret tt, single blank_canvas) ∧
  ∃ im', Run.draw_pixel 0%nat 2 3 (Name "white") (single blank_canvas)
           = (Ret tt, upd 0%nat im' (single blank_canvas)) ∧
    is_canvas im' ∧
    ∀ i j, pixel im' i j =
      if decide (i = 2 ∧ j = 3) then Some (with_alpha (255, 255, 255) 255)
      else pixel blank_canvas i j.
Proof.
  split.
  - apply (proj1 (draw_pixel_clips (single blank_canvas) 0%nat 16 3 (Name "no_such_color"))).
    unfold on_canvas, TILE_SIZE. lia.
  - apply (proj2 (draw_pixel_clips (single blank_canvas) 0%nat 2 3 (Name "white"))).
    + unfold on_canvas, TILE_SIZE. lia.
    + reflexivity.
    + apply is_canvas_blank.
    + reflexivity.
Defined.

(** C5. [fill_rect] is [draw_pixel] applied to each coordinate of the
    rectangle [[x, x+w) × [y, y+h)], row after row. On a canvas, with a
    color argument that denotes a triple [c], it returns normally and changes
    only the image it is given: a pixel of the canvas that lies in the
    rectangle holds [c] at alpha 255, every other pixel is as it was; the
    coordinates of the rectangle off the canvas are dropped. Whatever the
    color argument is, it never raises [IndexError]. *)
Theorem fill_rect_paints_rectangle (wd : world) (img : ref) (x y w h : Z)
    (color : color) :
  Run.fill_rect img x y w h color wd
    = draw_pixel_each img (rectangle x y w h) color wd ∧
  (∀ i j, (i, j) ∈ rectangle x y w h ↔ x ≤ i < x + w ∧ y ≤ j < y + h) ∧
  (∀ im, heap wd !! img = Some im → is_canvas im →
     (Run.fill_rect img x y w h color wd).1 ≠ Raise IndexError ∧
     ∀ c, color_value color = Some c →
       ∃ im', Run.fill_rect img x y w h color wd = (Ret tt, upd img im' wd) ∧
         is_canvas im' ∧
         ∀ i j, pixel im' i j =
           if decide (on_canvas i j ∧ x ≤ i < x + w ∧ y ≤ j < y + h)
           then Some (with_alpha c 255) else pixel im i j).
Proof.
  split; [apply fill_rect_each|]. split; [intros; apply elem_of_rectangle|].
  intros im Him Hc. rewrite fill_rect_each. split.
  - destruct (color_value color) as [c|] eqn:Hcol.
    + by rewrite (draw_pixel_each_run img color c _ wd im).
    + destruct color as [k|c]; [|done]. simpl in Hcol.
      rewrite draw_pixel_each_undefined by done. simpl. by case_decide.
  - intros c Hcol.
    exists (foldl (paint (with_alpha c 255)) im (rectangle x y w h)).
    split; [|split].
    + by apply draw_pixel_each_run.
    + by apply is_canvas_foldl_paint.
    + intros i j. rewrite pixel_foldl_paint by done.
      apply decide_ext. by rewrite elem_of_rectangle.
Qed.

Lemma fill_rect_paints_rectangle_witness :
  ∃ im', Run.fill_rect 0%nat 14 (-1) 4 3 (Name "gold") (single blank_canvas)
           = (Ret tt, upd 0%nat im' (single blank_canvas)) ∧
    is_canvas im' ∧
    ∀ i j, pixel im' i j =
      if decide (on_canvas i j ∧ 14 ≤ i < 14 + 4 ∧ -1 ≤ j < -1 + 3)
      then Some (with_alpha (218, 178, 58) 255) else pixel blank_canvas i j.
Proof.
  apply (proj2 (proj2 (proj2 (fill_rect_paints_rectangle
    (single blank_canvas) 0%nat 14 (-1) 4 3 (Name "gold")))
    blank_canvas eq_refl is_canvas_blank)).
  reflexivity.
Defined.

(** ** The drawers *)

Lemma new_image_run w :
  (new_image : M ref) w
  = (Ret (length (heap w)), set_heap (heap w ++ [blank_canvas]) w).
Proof. reflexivity. Qed.

Lemma Drawer_run d :
  Drawer d →
  ∀ w, d w = (as_ref (length (heap w)) (d w0).1,
              set_heap (heap w ++ [cell0 blank_canvas (d w0).2]) w).
Proof.
  intros (body & -> & Hb) w. unfold mbind, M_bind.
  rewrite !new_image_run.
  rewrite (Hb (set_heap (heap w ++ [blank_canvas]) w) (length (heap w)) blank_canvas).
  2:{ apply list_lookup_middle. reflexivity. }
  change (set_heap (heap w0 ++ [blank_canvas]) w0) with (single blank_canvas).
  change (length (heap w0)) with 0%nat.
  pose proof (LocalR_single body blank_canvas Hb) as Hs.
  destruct (body 0%nat (single blank_canvas)) as [o w1]. simpl in *.
  f_equal. unfold upd, set_heap. simpl. f_equal.
  rewrite <-(Nat.add_0_r (length (heap w))) at 1.
  by rewrite insert_app_r.
Qed.

Lemma drawer_check_spec d :
  drawer_check d = true →
  ∃ im, d w0 = (Ret 0%nat, single im) ∧ is_canvas im ∧ solid im.
Proof.
  unfold drawer_check. destruct (d w0) as [[[|r]|e] [[|im [|??]] [|??]]]; try done.
  intros [H1 H2]%andb_prop. exists im.
  apply bool_decide_eq_true_1 in H1, H2. done.
Qed.

Lemma Drawer_returns d :
  Drawer d → drawer_check d = true →
  ∃ im, returns d im ∧ canvas_of d = Some im ∧ is_canvas im ∧ solid im.
Proof.
  intros Hd (im & Hrun & Hc & Hs)%drawer_check_spec. exists im.
  split; [|split; [|done]].
  - intros w. rewrite (Drawer_run d Hd w), Hrun. reflexivity.
  - unfold canvas_of. by rewrite Hrun.
Qed.

Lemma drawers_check : forallb (λ nd : string * M ref, drawer_check nd.2) drawers = true.
Proof. vm_compute. reflexivity. Qed.

Lemma drawers_return :
  Forall (λ nd : string * M ref,
    ∃ im, returns nd.2 im ∧ canvas_of nd.2 = Some im ∧ is_canvas im ∧ solid im)
    drawers.
Proof.
  pose proof drawers_Drawer as HD. pose proof drawers_check as HC.
  rewrite forallb_forall in HC. rewrite Forall_forall in *.
  intros nd Hnd. apply Drawer_returns; [by apply HD|].
  apply HC. by apply list_elem_of_In.
Qed.

Lemma returns_canvas_of d im : returns d im → canvas_of d = Some im.
Proof. intros H. unfold canvas_of. rewrite (H w0). reflexivity. Qed.

Lemma returns_of_canvas d im :
  d ∈ (drawers : list (string * M ref)).*2 → canvas_of d = Some im → returns d im.
Proof.
  intros Hd Him. apply list_elem_of_fmap in Hd as ([n d'] & -> & Hd).
  pose proof drawers_return as H. rewrite Forall_forall in H.
  destruct (H _ Hd) as (im' & Hr & Hc & _). simpl in *. congruence.
Qed.

(** A property of each element of a concrete list, by evaluating its
    decision on each. *)
Lemma Forall_bool_decide {A} (P : A → Prop) `{!∀ x, Decision (P x)} (l : list A) :
  forallb (λ x, bool_decide (P x)) l = true → Forall P l.
Proof.
  rewrite forallb_forall, Forall_forall. intros Hb x Hx.
  apply (bool_decide_eq_true_1 (P x)), Hb. by apply list_elem_of_In.
Qed.

Ltac decide_each :=
  lazymatch goal with
  | |- Forall ?P ?l => apply (Forall_bool_decide P l); vm_compute; reflexivity
  end.

(** ** Opacity *)

Lemma opaque_with_alpha c : opaque (with_alpha c 255).
Proof. by destruct c as [[r g] b]. Qed.

Lemma solid_blank : solid blank_canvas.
Proof. unfold solid. decide_each. Qed.

Lemma solid_set_pixel_im im x y v :
  solid im → opaque v → solid (set_pixel_im im x y v).
Proof.
  unfold solid, pixels. rewrite !Forall_concat. simpl. intros H Hv.
  apply Forall_alter; [done|]. intros row _ Hrow.
  apply Forall_insert; [done|]. by right.
Qed.

Lemma putpixel_solid img xy v w :
  opaque v → all_solid w → all_solid (putpixel img xy v w).2.
Proof.
  intros Hv Hw. unfold putpixel.
  destruct (heap w !! img) as [im|] eqn:Him; [|done].
  case_match; [|done]. unfold all_solid in *. simpl.
  apply Forall_insert; [done|]. apply solid_set_pixel_im; [|done].
  rewrite Forall_forall in Hw. apply Hw. by eapply list_elem_of_lookup_2.
Qed.

Lemma draw_pixel_solid img x y color w :
  all_solid w → all_solid (Run.draw_pixel img x y color w).2.
Proof.
  intros Hw. unfold Run.draw_pixel. case_match; [|done].
  unfold mbind, M_bind.
  destruct color as [k|c].
  - unfold Run.COLORS_get. destruct (COLORS !! k) as [c|]; [|done].
    apply putpixel_solid; [apply opaque_with_alpha|done].
  - apply putpixel_solid; [apply opaque_with_alpha|done].
Qed.

Lemma for_invariant {A} (P : world → Prop) (f : A → M unit) xs :
  (∀ a w, P w → P (f a w).2) → ∀ w, P w → P (for_ xs f w).2.
Proof.
  intros Hf. induction xs as [|x xs IH]; intros w Hw; simpl; [done|].
  unfold mbind, M_bind. specialize (Hf x w Hw).
  destruct (f x w) as [[[]|e] w']; simpl in *; [by apply IH|done].
Qed.

Lemma fill_rect_solid img x y w h color wd :
  all_solid wd → all_solid (Run.fill_rect img x y w h color wd).2.
Proof.
  unfold Run.fill_rect. apply for_invariant. intros py w1.
  apply for_invariant. intros px w2. apply draw_pixel_solid.
Qed.

(** C10. No partial opacity: a new canvas is transparent black all over;
    [draw_pixel] and [fill_rect], with any arguments and in any world,
    keep every image of the world free of pixels that are neither
    transparent black nor of alpha 255; and the canvas that a drawer
    returns has only such pixels. *)
Theorem no_partial_opacity :
  Forall transparent (pixels blank_canvas) ∧
  (∀ w img x y color,
     all_solid w → all_solid (Run.draw_pixel img x y color w).2) ∧
  (∀ wd img x y w h color,
     all_solid wd → all_solid (Run.fill_rect img x y w h color wd).2) ∧
  Forall (λ nd : string * M ref,
    ∃ im, returns nd.2 im ∧
      Forall (λ p, p = (0, 0, 0, 0) ∨ alpha p = 255) (pixels im)) drawers.
Proof.
  split; [|split; [|split]].
  - decide_each.
  - intros. by apply draw_pixel_solid.
  - intros. by apply fill_rect_solid.
  - eapply Forall_impl; [apply drawers_return|].
    intros nd (im & Hr & _ & _ & Hs). by exists im.
Qed.

Lemma no_partial_opacity_witness :
  all_solid (single blank_canvas) ∧
  all_solid (Run.draw_pixel 0%nat 1 1 (Tuple (1, 2, 3)) (single blank_canvas)).2 ∧
  all_solid (Run.fill_rect 0%nat 1 1 20 2 (Name "gold") (single blank_canvas)).2.
Proof.
  assert (all_solid (single blank_canvas)) as H.
  { apply Forall_cons; split; [apply solid_blank | apply Forall_nil_2]. }
  split; [exact H|]. split.
  - apply (proj1 (proj2 no_partial_opacity)). exact H.
  - apply (proj1 (proj2 (proj2 no_partial_opacity))). exact H.
Defined.

(** C9. Each of the 39 drawers is deterministic: there is a canvas such
    that, from any world, two invocations in a row both return normally,
    each a new image object of its own, and both objects hold that canvas;
    nothing else in the world has changed. *)
Theorem drawers_deterministic :
  length (drawers : list (string * M ref)) = 39%nat ∧
  Forall (λ nd : string * M ref,
    ∃ im, is_canvas im ∧
      ∀ w, ∃ w1 w2,
        nd.2 w = (Ret (length (heap w)), w1) ∧
        nd.2 w1 = (Ret (S (length (heap w))), w2) ∧
        heap w2 = heap w ++ [im; im] ∧ trace w2 = trace w) drawers.
Proof.
  split; [reflexivity|].
  eapply Forall_impl; [apply drawers_return|].
  intros nd (im & Hr & _ & Hc & _). exists im. split; [done|].
  intros w. eexists _, _. split; [apply Hr|]. split.
  - rewrite Hr. simpl. rewrite length_app. simpl.
    by replace (length (heap w) + 1)%nat with (S (length (heap w))) by lia.
  - simpl. by rewrite <-app_assoc.
Qed.

(** C6. Every color name that a drawer passes to [draw_pixel] or
    [fill_rect], or subscripts [COLORS] with, is a key of the palette; and
    no drawer raises, in any world: the lookup never fails. *)
Theorem drawers_use_palette_names :
  Forall (λ nd : string * Calls ref,
    Forall (λ k, is_Some (COLORS !! k)) (names_passed nd.2)) drawers ∧
  Forall (λ nd : string * M ref, ∀ w, ∃ r w', nd.2 w = (Ret r, w')) drawers.
Proof.
  split.
  - decide_each.
  - eapply Forall_impl; [apply drawers_return|].
    intros nd (im & Hr & _) w. eexists _, _. apply Hr.
Qed.

(** ** Running the emitter *)

Lemma bind_run {A B} (m : M A) (k : A → M B) w a w' :
  m w = (Ret a, w') → (m ≫= k) w = k a w'.
Proof. intros H. unfold mbind, M_bind. by rewrite H. Qed.

Lemma Image_resize_run image size w im :
  heap w !! image = Some im →
  Image_resize image size w
  = (Ret (length (heap w)), set_heap (heap w ++ [resize_nearest im size]) w).
Proof. intros H. unfold Image_resize. by rewrite H. Qed.

Lemma Image_save_run img path w im :
  heap w !! img = Some im →
  Image_save img path w = (Ret tt, emit (ESave path im) w).
Proof. intros H. unfold Image_save. by rewrite H. Qed.

Lemma create_imageset_run name category image w im :
  heap w !! image = Some im →
  create_imageset name category image w
  = (Ret tt,
     {| heap := heap w ++ [scaled im 1; scaled im 2; scaled im 3];
        trace := trace w ++ imageset_events name category im |}).
Proof.
  intros Him. destruct w as [h t]. simpl in Him.
  unfold create_imageset. cbn [for_].
  erewrite bind_run; [|reflexivity].
  erewrite bind_run.
  2:{ erewrite bind_run.
      2:{ erewrite bind_run; [|by apply Image_resize_run].
          apply Image_save_run. simpl. by apply list_lookup_middle. }
      erewrite bind_run.
      2:{ erewrite bind_run.
          2:{ apply Image_resize_run. simpl. by apply lookup_app_l_Some. }
          apply Image_save_run. simpl. by apply list_lookup_middle. }
      erewrite bind_run.
      2:{ erewrite bind_run.
          2:{ apply Image_resize_run. simpl.
              by apply lookup_app_l_Some, lookup_app_l_Some. }
          apply Image_save_run. simpl. by apply list_lookup_middle. }
      reflexivity. }
  unfold dump_json, emit, set_heap, imageset_events, scaled. simpl.
  rewrite <-!app_assoc. reflexivity.
Qed.

Lemma events_of_run {A} (m : M A) w o w' evs :
  m w = (o, w') → trace w' = trace w ++ evs → events_of m w = evs.
Proof.
  intros Hm Ht. unfold events_of. rewrite Hm. simpl. rewrite Ht.
  by rewrite drop_app_length.
Qed.

(** ** Nearest-neighbour resizing *)

Lemma im_size_resize_nearest im size : im_size (resize_nearest im size) = size.
Proof. unfold resize_nearest. by case_decide. Qed.

Lemma centre_of_block s x d :
  0 < s → 0 ≤ d < s →
  ((2 * (s * x + d) + 1) * TILE_SIZE) `div` (2 * (TILE_SIZE * s)) = x.
Proof.
  intros Hs Hd. unfold TILE_SIZE. symmetry.
  apply (Z.div_unique _ _ x (16 * (2 * d + 1))); lia.
Qed.

Lemma pixel_resize_nearest im W H X Y :
  0 ≤ X < W → 0 ≤ Y < H → im_size im ≠ (W, H) →
  pixel (resize_nearest im (W, H)) X Y
  = Some (default (0, 0, 0, 0)
      (pixel im (((2 * X + 1) * im.(im_size).1) `div` (2 * W))
                (((2 * Y + 1) * im.(im_size).2) `div` (2 * H)))).
Proof.
  intros HX HY Hne. unfold resize_nearest. rewrite decide_False by done.
  unfold pixel at 1. simpl.
  rewrite (proj2 (Z.leb_le 0 X)), (proj2 (Z.leb_le 0 Y)) by lia.
  rewrite (proj2 (Z.ltb_lt X W)), (proj2 (Z.ltb_lt Y H)) by lia.
  simpl. rewrite list_lookup_fmap, lookup_seqZ_lt by lia. simpl.
  rewrite list_lookup_fmap, lookup_seqZ_lt by lia. simpl.
  by rewrite !Z2Nat.id by lia.
Qed.

Lemma scaled_block im s x y dx dy :
  is_canvas im → 1 ≤ s → on_canvas x y → 0 ≤ dx < s → 0 ≤ dy < s →
  pixel (scaled im s) (s * x + dx) (s * y + dy) = pixel im x y.
Proof.
  intros Hc Hs Hxy Hdx Hdy. unfold scaled.
  pose proof Hc as (Hsz & _).
  destruct (decide (s = 1)) as [->|Hs1].
  - unfold resize_nearest. rewrite decide_True by (by rewrite Hsz).
    f_equal; lia.
  - destruct Hxy as [Hx Hy]. unfold TILE_SIZE in Hx, Hy.
    rewrite pixel_resize_nearest; [|unfold TILE_SIZE; nia..|].
    2:{ rewrite Hsz. unfold TILE_SIZE. intros [=]. lia. }
    rewrite Hsz. simpl. rewrite !centre_of_block by lia.
    destruct (pixel_canvas im x y Hc) as [p ->]; done.
Qed.

(** ** Paths *)

Lemma starts_with_sep_app a b :
  starts_with_sep (a +:+ b) = if a is EmptyString then starts_with_sep b else starts_with_sep a.
Proof. by destruct a. Qed.

Lemma string_app_assoc (a b c : string) : (a +:+ b) +:+ c = a +:+ b +:+ c.
Proof.
  induction a as [|ch a IH]; [done|].
  change (String ch ((a +:+ b) +:+ c) = String ch (a +:+ b +:+ c)). by f_equal.
Qed.

Lemma path_join_file folder name :
  ∃ pre, ∀ rest, starts_with_sep rest = false →
    path_join folder [name +:+ rest] = pre +:+ name +:+ rest.
Proof.
  unfold path_join. simpl.
  destruct (starts_with_sep name) eqn:Hn.
  - exists "". intros rest Hr.
    assert (starts_with_sep (name +:+ rest) = true) as ->; [|done].
    rewrite starts_with_sep_app. by destruct name.
  - assert (∀ rest, starts_with_sep rest = false →
            starts_with_sep (name +:+ rest) = false) as Hrel.
    { intros rest Hr. rewrite starts_with_sep_app. by destruct name. }
    destruct (bool_decide (folder = "") || ends_with_sep folder) eqn:Hf.
    + exists folder. intros rest Hr. by rewrite Hrel.
    + exists (folder +:+ "/"). intros rest Hr. rewrite Hrel by done.
      by rewrite string_app_assoc.
Qed.

Lemma string_rev_app_app a b c :
  String.rev_app (a +:+ b) c = String.rev_app b (String.rev_app a c).
Proof. revert c. induction a as [|ch a IH]; intros c; simpl; [done|]. apply IH. Qed.

Lemma string_rev_app_last b c :
  b ≠ "" → ∃ ch t, String.rev_app b c = String ch t ∧ last_char b = Some ch.
Proof.
  unfold last_char, String.rev. intros Hb.
  assert (∀ b c d, b ≠ "" →
    ∃ ch t t', String.rev_app b c = String ch t ∧ String.rev_app b d = String ch t') as H.
  { clear. induction b as [|x b IH]; intros c d Hb; [done|]. simpl.
    destruct b as [|y b]; [simpl; eauto|]. by apply IH. }
  destruct (H b c "" Hb) as (ch & t & t' & -> & ->). eauto.
Qed.

Lemma last_char_app a b : b ≠ "" → last_char (a +:+ b) = last_char b.
Proof.
  intros Hb. unfold last_char at 1, String.rev. rewrite string_rev_app_app.
  destruct (string_rev_app_last b (String.rev_app a "") Hb) as (ch & t & -> & ->).
  done.
Qed.

Lemma last_char_path_join folder file :
  file ≠ "" → last_char (path_join folder [file]) = last_char file.
Proof.
  intros Hf. unfold path_join. simpl. repeat case_match; try done.
  - by apply last_char_app.
  - rewrite last_char_app; [by apply (last_char_app "/")|]. by destruct file.
Qed.

Lemma imageset_paths_distinct name category :
  NoDup [imageset_file name category (name +:+ ".png");
         imageset_file name category (name +:+ "@2x.png");
         imageset_file name category (name +:+ "@3x.png");
         imageset_file name category "Contents.json"].
Proof.
  unfold imageset_file.
  destruct (path_join_file (imageset_folder name category) name) as [pre Hpre].
  rewrite (Hpre ".png"), (Hpre "@2x.png"), (Hpre "@3x.png") by done.
  assert (∀ rest, rest ≠ "" →
    pre +:+ name +:+ rest ≠ path_join (imageset_folder name category) ["Contents.json"]
    ∨ last_char rest = Some "n"%char) as Hjson.
  { intros rest Hr.
    destruct (decide (last_char rest = Some "n"%char)) as [|Hne]; [by right|left].
    intros Heq. apply Hne.
    rewrite <-(last_char_app name rest), <-(last_char_app pre (name +:+ rest)), Heq;
      [|by destruct name, rest|done].
    by rewrite last_char_path_join. }
  assert (∀ r1 r2, r1 ≠ r2 → pre +:+ name +:+ r1 ≠ pre +:+ name +:+ r2) as Hinj.
  { intros r1 r2 Hne Heq. by apply String.app_inj, String.app_inj in Heq. }
  repeat (apply NoDup_cons; split); [..|apply NoDup_nil_2];
    rewrite ?elem_of_cons, ?elem_of_nil.
  - intros [H|[H|[H|[]]]]; [by eapply Hinj, H..|].
    destruct (Hjson ".png"); done.
  - intros [H|[H|[]]]; [by eapply Hinj, H|].
    destruct (Hjson "@2x.png"); done.
  - intros [H|[]]. destruct (Hjson "@3x.png"); done.
  - intros [].
Qed.

Lemma is_canvas_the_canvas (i : nat) (name : string) (d : M ref) :
  (drawers : list (string * M ref)) !! i = Some (name, d) → is_canvas (the_canvas d).
Proof.
  intros Hi. pose proof drawers_return as H. rewrite Forall_forall in H.
  destruct (H (name, d)) as (im & _ & Hcv & Hc & _); [by eapply list_elem_of_lookup_2|].
  simpl in Hcv. unfold the_canvas. by rewrite Hcv.
Qed.

(** C3. The images that [create_imageset] saves are block upscalings of
    the canvas: it returns normally, what it does is to make the folder,
    save three images and dump the descriptor, and in the image saved as
    [<name>@2x.png] and in the one saved as [<name>@3x.png], of scale
    [s = 2] and [s = 3], every pixel of the [s × s] block that starts at
    [(s*x, s*y)] is the pixel [(x, y)] of the canvas. *)
Theorem create_imageset_upscales_blocks
    (name category : string) (image : ref) (w : world) (im : Image) :
  heap w !! image = Some im → is_canvas im →
  ∃ i1 i2 i3 contents,
    (create_imageset name category image w).1 = Ret tt ∧
    events_of (create_imageset name category image) w =
      [EMakedirs (imageset_folder name category);
       ESave (imageset_file name category (name +:+ ".png")) i1;
       ESave (imageset_file name category (name +:+ "@2x.png")) i2;
       ESave (imageset_file name category (name +:+ "@3x.png")) i3;
       EWriteJson (imageset_file name category "Contents.json") contents] ∧
    ∀ s i, (s, i) ∈ [(2, i2); (3, i3)] →
      im_size i = (TILE_SIZE * s, TILE_SIZE * s) ∧
      ∀ x y dx dy, on_canvas x y → 0 ≤ dx < s → 0 ≤ dy < s →
        pixel i (s * x + dx) (s * y + dy) = pixel im x y.
Proof.
  intros Him Hc. exists (scaled im 1), (scaled im 2), (scaled im 3), (imageset_contents name).
  pose proof (create_imageset_run name category image w im Him) as Hrun.
  split; [by rewrite Hrun|]. split; [by eapply events_of_run|].
  intros s i Hsi.
  assert (1 ≤ s ∧ i = scaled im s) as [Hs ->].
  { rewrite !elem_of_cons, elem_of_nil in Hsi.
    destruct Hsi as [[= -> ->]|[[= -> ->]|[]]]; split; (lia || done). }
  split; [apply im_size_resize_nearest|].
  intros x y dx dy Hxy Hdx Hdy. by apply scaled_block.
Qed.

Lemma create_imageset_upscales_blocks_witness :
  is_canvas (the_canvas terrain_wall) ∧
  pixel (the_canvas terrain_wall) 4 3 = Some (0, 0, 0, 255) ∧
  pixel (the_canvas terrain_wall) 5 3 = Some (88, 88, 88, 255) ∧
  ∃ i1 i2 i3 contents,
    (create_imageset "terrain_wall" "Terrain" 0%nat
       (single (the_canvas terrain_wall))).1 = Ret tt ∧
    events_of (create_imageset "terrain_wall" "Terrain" 0%nat)
      (single (the_canvas terrain_wall)) =
      [EMakedirs (imageset_folder "terrain_wall" "Terrain");
       ESave (imageset_file "terrain_wall" "Terrain" ("terrain_wall" +:+ ".png")) i1;
       ESave (imageset_file "terrain_wall" "Terrain" ("terrain_wall" +:+ "@2x.png")) i2;
       ESave (imageset_file "terrain_wall" "Terrain" ("terrain_wall" +:+ "@3x.png")) i3;
       EWriteJson (imageset_file "terrain_wall" "Terrain" "Contents.json") contents] ∧
    ∀ s i, (s, i) ∈ [(2, i2); (3, i3)] →
      im_size i = (TILE_SIZE * s, TILE_SIZE * s) ∧
      ∀ x y dx dy, on_canvas x y → 0 ≤ dx < s → 0 ≤ dy < s →
        pixel i (s * x + dx) (s * y + dy) = pixel (the_canvas terrain_wall) x y.
Proof.
  assert (is_canvas (the_canvas terrain_wall)) as Hc
    by (by apply (is_canvas_the_canvas 7 "terrain_wall")).
  split; [exact Hc|]. split; [vm_compute; reflexivity|].
  split; [vm_compute; reflexivity|].
  apply (create_imageset_upscales_blocks "terrain_wall" "Terrain" 0%nat
           (single (the_canvas terrain_wall)) (the_canvas terrain_wall) eq_refl Hc).
Defined.

(** C7. For every sprite name, category and image, [create_imageset]
    returns normally and does exactly this: it makes the sprite folder,
    saves three images in it, named [<name>.png], [<name>@2x.png] and
    [<name>@3x.png], of 16, 32 and 48 pixels a side, and dumps a descriptor
    in it whose image list has exactly these three file names, in this
    order, with the scales ["1x"], ["2x"], ["3x"] and the idiom
    ["universal"]. The four paths differ from one another. *)
Theorem create_imageset_files
    (name category : string) (image : ref) (w : world) (im : Image) :
  heap w !! image = Some im →
  ∃ i1 i2 i3 contents,
    (create_imageset name category image w).1 = Ret tt ∧
    events_of (create_imageset name category image) w =
      [EMakedirs (imageset_folder name category);
       ESave (imageset_file name category (name +:+ ".png")) i1;
       ESave (imageset_file name category (name +:+ "@2x.png")) i2;
       ESave (imageset_file name category (name +:+ "@3x.png")) i3;
       EWriteJson (imageset_file name category "Contents.json") contents] ∧
    descriptor_images contents =
      Some [(name +:+ ".png", "universal", "1x");
            (name +:+ "@2x.png", "universal", "2x");
            (name +:+ "@3x.png", "universal", "3x")] ∧
    im_size i1 = (16, 16) ∧ im_size i2 = (32, 32) ∧ im_size i3 = (48, 48) ∧
    NoDup [imageset_file name category (name +:+ ".png");
           imageset_file name category (name +:+ "@2x.png");
           imageset_file name category (name +:+ "@3x.png");
           imageset_file name category "Contents.json"].
Proof.
  intros Him. exists (scaled im 1), (scaled im 2), (scaled im 3), (imageset_contents name).
  pose proof (create_imageset_run name category image w im Him) as Hrun.
  split; [by rewrite Hrun|]. split; [by eapply events_of_run|].
  split; [reflexivity|].
  repeat (split; [apply im_size_resize_nearest|]).
  apply imageset_paths_distinct.
Qed.

Lemma create_imageset_files_witness :
  ∃ i1 i2 i3 contents,
    (create_imageset "item_ore" "Items" 0%nat (single blank_canvas)).1 = Ret tt ∧
    events_of (create_imageset "item_ore" "Items" 0%nat) (single blank_canvas) =
      [EMakedirs (imageset_folder "item_ore" "Items");
       ESave (imageset_file "item_ore" "Items" ("item_ore" +:+ ".png")) i1;
       ESave (imageset_file "item_ore" "Items" ("item_ore" +:+ "@2x.png")) i2;
       ESave (imageset_file "item_ore" "Items" ("item_ore" +:+ "@3x.png")) i3;
       EWriteJson (imageset_file "item_ore" "Items" "Contents.json") contents] ∧
    descriptor_images contents =
      Some [("item_ore" +:+ ".png", "universal", "1x");
            ("item_ore" +:+ "@2x.png", "universal", "2x");
            ("item_ore" +:+ "@3x.png", "universal", "3x")] ∧
    im_size i1 = (16, 16) ∧ im_size i2 = (32, 32) ∧ im_size i3 = (48, 48) ∧
    NoDup [imageset_file "item_ore" "Items" ("item_ore" +:+ ".png");
           imageset_file "item_ore" "Items" ("item_ore" +:+ "@2x.png");
           imageset_file "item_ore" "Items" ("item_ore" +:+ "@3x.png");
           imageset_file "item_ore" "Items" "Contents.json"].
Proof.
  apply (create_imageset_files "item_ore" "Items" 0%nat (single blank_canvas)
           blank_canvas eq_refl).
Defined.

(** ** Running the driver *)

Lemma returns_the_canvas d im : returns d im → the_canvas d = im.
Proof. intros H. unfold the_canvas. by rewrite (returns_canvas_of d im H). Qed.

Lemma sprite_run name category d im w :
  returns d im →
  (print ("Generating " +:+ name +:+ "...");;
   image ← d; create_imageset name category image) w
  = (Ret tt, {| heap := heap w ++ sprite_objects im;
                trace := trace w ++ sprite_events name category im |}).
Proof.
  intros Hd. erewrite bind_run; [|reflexivity].
  erewrite bind_run; [|apply Hd].
  erewrite create_imageset_run; [|by apply list_lookup_middle].
  unfold sprite_objects, sprite_events, emit, set_heap. simpl.
  by rewrite <-!app_assoc.
Qed.

Lemma catalog_run category (l : list (string * M ref)) :
  Forall (λ nd, ∃ im, returns nd.2 im) l →
  ∀ w, for_ l (λ '(name, func),
         print ("Generating " +:+ name +:+ "...");;
         image ← func; create_imageset name category image) w
  = (Ret tt, {| heap := heap w ++ catalog_objects l;
                trace := trace w ++ catalog_events category l |}).
Proof.
  induction 1 as [|[name d] l [im Hd] _ IH]; intros w.
  - unfold catalog_objects, catalog_events. simpl. rewrite !app_nil_r. by destruct w.
  - cbn [for_]. erewrite bind_run; [|by apply sprite_run].
    rewrite IH. unfold catalog_objects, catalog_events. simpl.
    rewrite (returns_the_canvas d im Hd). by rewrite <-!app_assoc.
Qed.

Lemma drawers_split :
  Forall (λ nd : string * M ref, ∃ im, returns nd.2 im) terrain_sprites ∧
  Forall (λ nd : string * M ref, ∃ im, returns nd.2 im) creature_sprites ∧
  Forall (λ nd : string * M ref, ∃ im, returns nd.2 im) item_sprites ∧
  ∃ im, returns ui_selection im.
Proof.
  assert (Forall (λ nd : string * M ref, ∃ im, returns nd.2 im) drawers) as H.
  { eapply Forall_impl; [apply drawers_return|]. intros nd (im & ? & _). eauto. }
  unfold drawers in H. rewrite !Forall_app in H.
  destruct H as (Ht & Hc & Hi & Hui).
  rewrite Forall_singleton in Hui. done.
Qed.

Lemma scaffold_run w :
  for_ ["Terrain"; "Creatures"; "Items"; "UI"] (λ category,
    let path := path_join ASSETS_PATH [category] in
    makedirs path;; create_folder_contents path) w
  = (Ret tt, {| heap := heap w; trace := trace w ++ scaffold_events |}).
Proof.
  cbn [for_]. repeat (erewrite bind_run; [|reflexivity]).
  unfold mret, M_ret, emit. simpl. by rewrite <-!app_assoc.
Qed.

Lemma main_run w :
  main w = (Ret tt, {| heap := heap w ++ main_objects;
                       trace := trace w ++ main_events |}).
Proof.
  destruct drawers_split as (Ht & Hc & Hi & im & Hui).
  unfold main.
  erewrite bind_run; [|apply scaffold_run].
  erewrite bind_run; [|by apply catalog_run].
  erewrite bind_run; [|by apply catalog_run].
  erewrite bind_run; [|by apply catalog_run].
  erewrite bind_run; [|reflexivity].
  erewrite bind_run; [|apply Hui].
  erewrite bind_run; [|by apply create_imageset_run, list_lookup_middle].
  unfold print, emit, main_objects, main_events, sprite_objects, sprite_events. simpl.
  rewrite (returns_the_canvas _ im Hui). by rewrite <-!app_assoc.
Qed.

(** ** The order of a run *)

Lemma main_events_of w : events_of main w = main_events.
Proof. eapply events_of_run; [apply main_run|done]. Qed.

Lemma main_ops :
  op_of <$> main_events
  = scaffold_ops ++ (catalog ≫= sprite_ops)
    ++ [OPrint (String "010" "Done! Generated all sprites in Assets.xcassets")].
Proof. vm_compute. reflexivity. Qed.

Lemma Forall_lookup_imap {A} (P : nat → A → Prop) (l : list A) :
  Forall (λ ia, P ia.1 ia.2) (imap pair l) → ∀ i a, l !! i = Some a → P i a.
Proof.
  rewrite Forall_forall. intros H i a Hi. apply (H (i, a)).
  apply list_elem_of_lookup. exists i. by rewrite list_lookup_imap, Hi.
Qed.

Lemma main_dirs_first :
  Forall (λ io : nat * op,
    Forall (λ category,
      below (category_folder category) io.2 →
      OMakedirs (category_folder category) ∈ take io.1 (op_of <$> main_events))
      ["Terrain"; "Creatures"; "Items"; "UI"])
    (imap pair (op_of <$> main_events)).
Proof. rewrite main_ops. decide_each. Qed.

Lemma sprites_return :
  Forall (λ s : string * string * M ref, returns s.2 (the_canvas s.2)) sprites.
Proof.
  rewrite Forall_forall. intros [[name category] d] Hs. simpl.
  assert (d ∈ (drawers : list (string * M ref)).*2) as Hd.
  { replace ((drawers : list (string * M ref)).*2) with (sprites.*2) by reflexivity.
    apply list_elem_of_fmap. by exists (name, category, d). }
  apply list_elem_of_fmap in Hd as ([n d'] & -> & Hd).
  pose proof drawers_return as H. rewrite Forall_forall in H.
  destruct (H _ Hd) as (im & Hr & _). simpl in *.
  by rewrite (returns_the_canvas d' im Hr).
Qed.

Lemma main_events_sprites :
  main_events
  = scaffold_events
    ++ (sprites ≫= λ s, sprite_events s.1.1 s.1.2 (the_canvas s.2))
    ++ [EPrint (String "010" "Done! Generated all sprites in Assets.xcassets")].
Proof.
  unfold main_events, sprites, catalog_events.
  rewrite !bind_app, !list_fmap_bind, <-?app_assoc.
  cbn [mbind list_bind]. by rewrite app_nil_r.
Qed.

Lemma main_objects_sprites :
  main_objects = sprites ≫= λ s, sprite_objects (the_canvas s.2).
Proof.
  unfold main_objects, sprites, catalog_objects.
  rewrite !bind_app, !list_fmap_bind, <-?app_assoc.
  cbn [mbind list_bind]. by rewrite app_nil_r.
Qed.

(** C8. Every run of [main], from any world, returns normally, and what
    it does is, in this order: for each of the four categories, make its
    directory and dump its descriptor, which marks the directory as a
    namespace; then for each sprite of the catalog (the terrain entries, the
    creature entries and the item entries as declared, then the UI sprite)
    print the progress line, run the drawer of the sprite, make the sprite
    folder, save the canvas that the drawer returned and its two upscalings,
    and dump the descriptor; then print the closing line. The image objects
    of the run are made in the same order, the canvas of a sprite before its
    three saved images and after those of the sprite before. Whatever is
    made or written below a category directory comes after the making of
    that directory. *)
Theorem main_order (w : world) :
  ∃ evs,
    main w = (Ret tt,
              {| heap := heap w ++ (sprites ≫= λ s, sprite_objects (the_canvas s.2));
                 trace := trace w ++ evs |}) ∧
    evs = scaffold_events
          ++ (sprites ≫= λ s, sprite_events s.1.1 s.1.2 (the_canvas s.2))
          ++ [EPrint (String "010" "Done! Generated all sprites in Assets.xcassets")] ∧
    Forall (λ s : string * string * M ref, returns s.2 (the_canvas s.2)) sprites ∧
    (λ s : string * string * M ref, (s.1.1, s.1.2)) <$> sprites = catalog ∧
    json_get "properties" folder_contents ≫= json_get "provides-namespace"
      = Some (JBool true) ∧
    op_of <$> evs
      = scaffold_ops ++ (catalog ≫= sprite_ops)
        ++ [OPrint (String "010" "Done! Generated all sprites in Assets.xcassets")] ∧
    catalog.*1 = (drawers : list (string * M ref)).*1 ∧
    ∀ i o category,
      (op_of <$> evs) !! i = Some o →
      category ∈ ["Terrain"; "Creatures"; "Items"; "UI"] →
      below (category_folder category) o →
      OMakedirs (category_folder category) ∈ take i (op_of <$> evs).
Proof.
  exists main_events.
  split; [rewrite main_run; by rewrite main_objects_sprites|].
  split; [apply main_events_sprites|]. split; [apply sprites_return|].
  split; [reflexivity|]. split; [reflexivity|]. split; [apply main_ops|].
  split; [reflexivity|].
  intros i o category Hi Hc.
  pose proof (Forall_lookup_imap
    (λ i o, Forall (λ category,
       below (category_folder category) o →
       OMakedirs (category_folder category) ∈ take i (op_of <$> main_events))
       ["Terrain"; "Creatures"; "Items"; "UI"])
    _ main_dirs_first i o Hi) as H.
  rewrite Forall_forall in H. by apply H.
Qed.

Lemma main_order_witness :
  OMakedirs (category_folder "Items")
    ∈ take 180 (op_of <$> events_of main w0).
Proof.
  destruct (main_order w0) as (evs & Hrun & Hevs & _ & _ & _ & _ & _ & H).
  rewrite (events_of_run main w0 _ _ evs Hrun eq_refl).
  apply (H 180%nat (OSave (imageset_file "item_table" "Items" "item_table@3x.png")) "Items").
  - rewrite Hevs. vm_compute. reflexivity.
  - repeat constructor.
  - vm_compute. reflexivity.
Defined.

(** ** Two sprites *)

Lemma returns_the_canvas_of (i : nat) (name : string) (d : M ref) :
  (drawers : list (string * M ref)) !! i = Some (name, d) → returns d (the_canvas d).
Proof.
  intros Hi. pose proof drawers_return as H. rewrite Forall_forall in H.
  destruct (H (name, d)) as (im & Hr & _); [by eapply list_elem_of_lookup_2|].
  simpl in Hr. by rewrite (returns_the_canvas d im Hr).
Qed.

(** C1, as the code has it. The pixel [(0, 0)] of the canvas that
    [terrain_wall] returns is the triple of ["stone_dark"] at alpha 255 (the
    rock face rectangle [[0, 8) × [0, 6)] is drawn over the ["wall_dark"]
    fill), and this canvas is the one image that a run of [main] saves as
    [terrain_wall.png]. *)
Theorem terrain_wall_origin :
  ∃ im c,
    COLORS !! "stone_dark" = Some c ∧
    returns terrain_wall im ∧
    pixel im 0 0 = Some (with_alpha c 255) ∧
    ∀ w, saved_at "Outpost/Assets.xcassets/Terrain/terrain_wall.imageset/terrain_wall.png"
           (events_of main w) = [im].
Proof.
  exists (the_canvas terrain_wall), (88, 88, 88).
  split; [reflexivity|]. split; [by apply (returns_the_canvas_of 7 "terrain_wall")|].
  split; [vm_compute; reflexivity|].
  intros w. rewrite main_events_of. vm_compute. reflexivity.
Qed.

(** C1, as the spec has it, fails: the pixel [(0, 0)] of the canvas of
    [terrain_wall] is not the triple of ["wall_dark"] at alpha 255. *)
Lemma terrain_wall_origin_not_wall_dark :
  ¬ ∃ im c,
      COLORS !! "wall_dark" = Some c ∧
      returns terrain_wall im ∧
      pixel im 0 0 = Some (with_alpha c 255).
Proof.
  intros (im & c & Hc & Hr & Hp).
  apply returns_the_canvas in Hr. subst im.
  vm_compute in Hc. injection Hc as <-.
  vm_compute in Hp. discriminate Hp.
Qed.

(** C2, as the code has it. The canvas of [ui_selection] is mostly
    transparent: 228 of its 256 pixels are the transparent fill and 28 are
    opaque. The canvas of [terrain_empty_air] is opaque all over: 251 pixels
    hold the ["empty"] color and 5 the lighter mark, all at alpha 255. *)
Theorem transparent_background :
  (∃ im, returns ui_selection im ∧
     length (pixels im) = 256%nat ∧
     count transparent im = 228%nat ∧ count opaque im = 28%nat) ∧
  (∃ im, returns terrain_empty_air im ∧
     length (pixels im) = 256%nat ∧
     count transparent im = 0%nat ∧ count opaque im = 256%nat ∧
     count (λ p, p = (28, 28, 38, 255)) im = 251%nat ∧
     count (λ p, p = (48, 48, 58, 255)) im = 5%nat).
Proof.
  split.
  - exists (the_canvas ui_selection).
    split; [by apply (returns_the_canvas_of 38 "ui_selection")|].
    repeat split; vm_compute; reflexivity.
  - exists (the_canvas terrain_empty_air).
    split; [by apply (returns_the_canvas_of 0 "terrain_empty_air")|].
    repeat split; vm_compute; reflexivity.
Qed.

(** C2, as the spec has it, fails for [terrain_empty_air]: the transparent
    pixels of its canvas are not the majority. *)
Lemma terrain_empty_air_not_transparent :
  ¬ ∃ im, returns terrain_empty_air im ∧ (128 < count transparent im)%nat.
Proof.
  intros (im & Hr & Hn).
  apply returns_the_canvas in Hr. subst im.
  vm_compute in Hn. lia.
Qed.

(** ** More on the canvas primitives *)

Lemma pixel_blank_canvas x y :
  pixel blank_canvas x y = if decide (on_canvas x y) then Some (0, 0, 0, 0) else None.
Proof.
  case_decide as Hxy; [|by apply pixel_off_canvas; [apply is_canvas_blank|]].
  unfold pixel, blank_canvas, blank. cbn [im_size im_rows fst snd].
  rewrite guard_on_canvas, bool_decide_eq_true_2 by done.
  destruct Hxy as [Hx Hy]. unfold TILE_SIZE in *.
  rewrite lookup_replicate_2 by lia. cbn -[replicate].
  apply lookup_replicate_2. lia.
Qed.

(** X1. [new_image] returns, in every world, a new object: its reference
    names no object of the world before the call, every object of the world
    stays as it was, and the new object is a canvas whose pixels are all
    transparent black. *)
Theorem new_image_fresh (w : world) :
  ∃ r im w',
    Run.new_image w = (Ret r, w') ∧
    heap w !! r = None ∧
    heap w' = heap w ++ [im] ∧ heap w' !! r = Some im ∧ trace w' = trace w ∧
    is_canvas im ∧
    ∀ x y, pixel im x y = if decide (on_canvas x y) then Some (0, 0, 0, 0) else None.
Proof.
  exists (length (heap w)), blank_canvas, (set_heap (heap w ++ [blank_canvas]) w).
  split; [reflexivity|]. split; [by apply lookup_ge_None_2|].
  split; [reflexivity|]. split; [by apply list_lookup_middle|].
  split; [reflexivity|]. split; [apply is_canvas_blank|]. apply pixel_blank_canvas.
Qed.

(** X2. With a name that the palette lacks, [draw_pixel] raises [KeyError]
    for a coordinate on the canvas and returns normally for one off it; in
    both cases the world is as it was, whatever the image reference is. *)
Theorem draw_pixel_missing_key (w : world) (img : ref) (x y : Z) (k : string) :
  COLORS !! k = None →
  Run.draw_pixel img x y (Name k) w
  = (if decide (on_canvas x y) then Raise (KeyError k) else Ret tt, w).
Proof.
  intros Hk. case_decide.
  - by apply draw_pixel_undefined.
  - by apply draw_pixel_off.
Qed.

Lemma draw_pixel_missing_key_witness :
  Run.draw_pixel 0%nat 3 4 (Name "purple") w0 = (Raise (KeyError "purple"), w0) ∧
  Run.draw_pixel 0%nat 3 16 (Name "purple") w0 = (Ret tt, w0).
Proof.
  split.
  - apply (draw_pixel_missing_key w0 0%nat 3 4 "purple"). reflexivity.
  - apply (draw_pixel_missing_key w0 0%nat 3 16 "purple"). reflexivity.
Defined.

Lemma set_pixel_im_twice im x y v1 v2 :
  set_pixel_im (set_pixel_im im x y v1) x y v2 = set_pixel_im im x y v2.
Proof.
  unfold set_pixel_im. simpl. f_equal.
  rewrite list_alter_alter_eq. apply list_alter_ext; [|done].
  intros row _. simpl. apply list_insert_insert_eq.
Qed.

Lemma set_pixel_im_swap im x1 y1 x2 y2 v1 v2 :
  0 ≤ x1 → 0 ≤ y1 → 0 ≤ x2 → 0 ≤ y2 → (x1, y1) ≠ (x2, y2) →
  set_pixel_im (set_pixel_im im x1 y1 v1) x2 y2 v2
  = set_pixel_im (set_pixel_im im x2 y2 v2) x1 y1 v1.
Proof.
  intros ???? Hne. unfold set_pixel_im. simpl. f_equal.
  destruct (decide (y1 = y2)) as [->|Hy].
  - rewrite !list_alter_alter_eq. apply list_alter_ext; [|done].
    intros row _. simpl. apply list_insert_insert_ne.
    intros Heq. apply Hne. f_equal. lia.
  - apply list_alter_alter_ne. lia.
Qed.

Lemma paint_twice v1 v2 im p : paint v2 (paint v1 im p) p = paint v2 im p.
Proof. unfold paint. case_decide; [apply set_pixel_im_twice|done]. Qed.

Lemma paint_swap v1 v2 im p q :
  p ≠ q → paint v2 (paint v1 im p) q = paint v1 (paint v2 im q) p.
Proof.
  intros Hne. unfold paint. destruct p as [x1 y1], q as [x2 y2]. simpl.
  repeat case_decide; try done.
  unfold on_canvas in *. apply set_pixel_im_swap; (lia || done).
Qed.

(** X3. On a canvas, with color arguments that denote colors, a
    [draw_pixel] replaces an earlier one at the same coordinate, and two
    [draw_pixel]s at different coordinates give the same world in either
    order. *)
Theorem draw_pixel_composes (w : world) (img : ref) (im : Image)
    (x1 y1 x2 y2 : Z) (c1 c2 : color) (v1 v2 : rgb) :
  heap w !! img = Some im → is_canvas im →
  color_value c1 = Some v1 → color_value c2 = Some v2 →
  (Run.draw_pixel img x1 y1 c1 ;; Run.draw_pixel img x1 y1 c2) w
    = Run.draw_pixel img x1 y1 c2 w ∧
  ((x1, y1) ≠ (x2, y2) →
   (Run.draw_pixel img x1 y1 c1 ;; Run.draw_pixel img x2 y2 c2) w
     = (Run.draw_pixel img x2 y2 c2 ;; Run.draw_pixel img x1 y1 c1) w).
Proof.
  intros Him Hc H1 H2.
  assert (∀ xa ya ca va xb yb cb vb,
    color_value ca = Some va → color_value cb = Some vb →
    (Run.draw_pixel img xa ya ca ;; Run.draw_pixel img xb yb cb) w
    = (Ret tt, upd img (paint (with_alpha vb 255)
                          (paint (with_alpha va 255) im (xa, ya)) (xb, yb)) w)) as Hseq.
  { intros xa ya ca va xb yb cb vb Ha Hb.
    erewrite bind_run; [|by apply (draw_pixel_run w img im xa ya ca va)].
    erewrite draw_pixel_run; [|by eapply upd_lookup|by apply is_canvas_paint|done].
    by rewrite upd_upd. }
  split.
  - rewrite (Hseq x1 y1 c1 v1 x1 y1 c2 v2) by done.
    rewrite (draw_pixel_run w img im x1 y1 c2 v2) by done.
    by rewrite paint_twice.
  - intros Hne.
    rewrite (Hseq x1 y1 c1 v1 x2 y2 c2 v2), (Hseq x2 y2 c2 v2 x1 y1 c1 v1) by done.
    by rewrite (paint_swap _ _ im (x1, y1) (x2, y2)).
Qed.

Lemma draw_pixel_composes_witness :
  (Run.draw_pixel 0%nat 1 2 (Name "gold") ;; Run.draw_pixel 0%nat 1 2 (Tuple (1, 2, 3)))
     (single blank_canvas)
    = Run.draw_pixel 0%nat 1 2 (Tuple (1, 2, 3)) (single blank_canvas) ∧
  (Run.draw_pixel 0%nat 1 2 (Name "gold") ;; Run.draw_pixel 0%nat 5 2 (Tuple (1, 2, 3)))
     (single blank_canvas)
    = (Run.draw_pixel 0%nat 5 2 (Tuple (1, 2, 3)) ;; Run.draw_pixel 0%nat 1 2 (Name "gold"))
        (single blank_canvas).
Proof.
  destruct (draw_pixel_composes (single blank_canvas) 0%nat blank_canvas 1 2 5 2
              (Name "gold") (Tuple (1, 2, 3)) (218, 178, 58) (1, 2, 3)
              eq_refl is_canvas_blank eq_refl eq_refl) as [H1 H2].
  split; [exact H1|]. apply H2. intros [=].
Defined.

(** ** More on [fill_rect] *)

Lemma meets_canvas_rectangle x y w h :
  meets_canvas x y w h ↔ Exists (λ p, on_canvas p.1 p.2) (rectangle x y w h).
Proof.
  rewrite Exists_exists. unfold meets_canvas, on_canvas, TILE_SIZE. split.
  - intros (Hw & Hh & Hx1 & Hx2 & Hy1 & Hy2).
    exists (Z.max x 0, Z.max y 0). split; [|simpl; lia].
    apply elem_of_rectangle. lia.
  - intros ([i j] & Hin & Hon). apply elem_of_rectangle in Hin. simpl in Hon. lia.
Qed.

Lemma draw_pixel_each_off img ps color w :
  ¬ Exists (λ p, on_canvas p.1 p.2) ps →
  draw_pixel_each img ps color w = (Ret tt, w).
Proof.
  unfold draw_pixel_each. induction ps as [|[x y] ps IH]; intros Hps; [done|].
  cbn [for_]. erewrite bind_run.
  - apply IH. intros H. apply Hps. by apply Exists_cons_tl.
  - apply draw_pixel_off. intros H. apply Hps. by apply Exists_cons_hd.
Qed.

(** X4. A [fill_rect] whose rectangle is empty (a width or a height that is
    not positive) or lies off the canvas does nothing: it returns normally
    and leaves the world as it was, whatever the image reference and the
    color argument are; a name that the palette lacks is not looked up. *)
Theorem fill_rect_misses_canvas (wd : world) (img : ref) (x y w h : Z)
    (color : color) :
  ¬ meets_canvas x y w h →
  Run.fill_rect img x y w h color wd = (Ret tt, wd).
Proof.
  intros H. rewrite fill_rect_each. apply draw_pixel_each_off.
  by rewrite <-meets_canvas_rectangle.
Qed.

Lemma fill_rect_misses_canvas_witness :
  Run.fill_rect 7%nat 3 3 0 5 (Name "purple") w0 = (Ret tt, w0) ∧
  Run.fill_rect 7%nat 16 (-2) 4 30 (Name "purple") w0 = (Ret tt, w0).
Proof.
  split.
  - apply (fill_rect_misses_canvas w0 7%nat 3 3 0 5 (Name "purple")).
    unfold meets_canvas, TILE_SIZE. lia.
  - apply (fill_rect_misses_canvas w0 7%nat 16 (-2) 4 30 (Name "purple")).
    unfold meets_canvas, TILE_SIZE. lia.
Defined.

(** X5. With a name that the palette lacks, a [fill_rect] whose rectangle
    has a coordinate on the canvas raises [KeyError]; nothing has been drawn
    by then: the world is as it was. *)
Theorem fill_rect_missing_key (wd : world) (img : ref) (x y w h : Z) (k : string) :
  COLORS !! k = None → meets_canvas x y w h →
  Run.fill_rect img x y w h (Name k) wd = (Raise (KeyError k), wd).
Proof.
  intros Hk Hm. rewrite fill_rect_each, draw_pixel_each_undefined by done.
  rewrite decide_True; [done|]. by apply meets_canvas_rectangle.
Qed.

Lemma fill_rect_missing_key_witness :
  Run.fill_rect 0%nat (-3) 14 5 5 (Name "purple") (single blank_canvas)
  = (Raise (KeyError "purple"), single blank_canvas).
Proof.
  apply (fill_rect_missing_key (single blank_canvas) 0%nat (-3) 14 5 5 "purple").
  - reflexivity.
  - unfold meets_canvas, TILE_SIZE. lia.
Defined.

(** X6. A [fill_rect] of height [h1 + h2] is the [fill_rect] of the upper
    [h1] rows followed by the [fill_rect] of the lower [h2] rows, in every
    world and for every color argument. *)
Theorem fill_rect_rows (wd : world) (img : ref) (x y w h1 h2 : Z) (color : color) :
  0 ≤ h1 → 0 ≤ h2 →
  Run.fill_rect img x y w (h1 + h2) color wd
  = (Run.fill_rect img x y w h1 color ;; Run.fill_rect img x (y + h1) w h2 color) wd.
Proof.
  intros H1 H2. unfold Run.fill_rect, range2.
  replace (y + (h1 + h2) - y) with (h1 + h2) by lia.
  replace (y + h1 - y) with h1 by lia.
  replace (y + h1 + h2 - (y + h1)) with h2 by lia.
  rewrite seqZ_app by done. apply for_app.
Qed.

Lemma fill_rect_rows_witness :
  Run.fill_rect 0%nat 2 3 4 (2 + 3) (Name "gold") (single blank_canvas)
  = (Run.fill_rect 0%nat 2 3 4 2 (Name "gold") ;;
     Run.fill_rect 0%nat 2 (3 + 2) 4 3 (Name "gold")) (single blank_canvas).
Proof.
  apply (fill_rect_rows (single blank_canvas) 0%nat 2 3 4 2 3 (Name "gold")); lia.
Defined.

(** X7. Of two [fill_rect]s on a canvas, the later one wins where the
    rectangles overlap: after both, a pixel of the canvas in the second
    rectangle holds the second color, one in the first rectangle only holds
    the first color, and every other pixel is as it was. *)
Theorem fill_rect_overdraws (wd : world) (img : ref) (im : Image)
    (x1 y1 w1 h1 x2 y2 w2 h2 : Z) (c1 c2 : color) (v1 v2 : rgb) :
  heap wd !! img = Some im → is_canvas im →
  color_value c1 = Some v1 → color_value c2 = Some v2 →
  ∃ im',
    (Run.fill_rect img x1 y1 w1 h1 c1 ;; Run.fill_rect img x2 y2 w2 h2 c2) wd
      = (Ret tt, upd img im' wd) ∧
    is_canvas im' ∧
    ∀ i j, pixel im' i j =
      if decide (on_canvas i j ∧ x2 ≤ i < x2 + w2 ∧ y2 ≤ j < y2 + h2)
      then Some (with_alpha v2 255)
      else if decide (on_canvas i j ∧ x1 ≤ i < x1 + w1 ∧ y1 ≤ j < y1 + h1)
      then Some (with_alpha v1 255)
      else pixel im i j.
Proof.
  intros Him Hc H1 H2.
  set (im1 := foldl (paint (with_alpha v1 255)) im (rectangle x1 y1 w1 h1)).
  assert (is_canvas im1) as Hc1 by (by apply is_canvas_foldl_paint).
  exists (foldl (paint (with_alpha v2 255)) im1 (rectangle x2 y2 w2 h2)).
  split; [|split].
  - erewrite bind_run.
    2:{ rewrite fill_rect_each. by apply (draw_pixel_each_run img c1 v1). }
    rewrite fill_rect_each.
    rewrite (draw_pixel_each_run img c2 v2 _ _ im1); [|by eapply upd_lookup|done..].
    by rewrite upd_upd.
  - by apply is_canvas_foldl_paint.
  - intros i j. rewrite pixel_foldl_paint by done. unfold im1.
    rewrite pixel_foldl_paint by done.
    rewrite (decide_ext _ _ _ _ (and_iff_compat_l _ (elem_of_rectangle x2 y2 w2 h2 i j))).
    rewrite (decide_ext _ _ _ _ (and_iff_compat_l _ (elem_of_rectangle x1 y1 w1 h1 i j))).
    done.
Qed.

Lemma fill_rect_overdraws_witness :
  ∃ im',
    (Run.fill_rect 0%nat 0 0 16 16 (Name "wall_dark") ;;
     Run.fill_rect 0%nat 0 0 8 6 (Name "stone_dark")) (single blank_canvas)
      = (Ret tt, upd 0%nat im' (single blank_canvas)) ∧
    is_canvas im' ∧
    ∀ i j, pixel im' i j =
      if decide (on_canvas i j ∧ 0 ≤ i < 0 + 8 ∧ 0 ≤ j < 0 + 6)
      then Some (with_alpha (88, 88, 88) 255)
      else if decide (on_canvas i j ∧ 0 ≤ i < 0 + 16 ∧ 0 ≤ j < 0 + 16)
      then Some (with_alpha (68, 68, 68) 255)
      else pixel blank_canvas i j.
Proof.
  apply (fill_rect_overdraws (single blank_canvas) 0%nat blank_canvas
           0 0 16 16 0 0 8 6 (Name "wall_dark") (Name "stone_dark")
           (68, 68, 68) (88, 88, 88) eq_refl is_canvas_blank eq_refl eq_refl).
Defined.

(** ** More on the emitter *)

Lemma pixel_outside im x y :
  ¬ (0 ≤ x < im.(im_size).1 ∧ 0 ≤ y < im.(im_size).2) → pixel im x y = None.
Proof.
  intros H. unfold pixel. case_match eqn:Hb; [|done]. destruct H.
  repeat (apply andb_prop in Hb as [Hb ?]). lia.
Qed.

(** The pixels of an upscaling of a canvas, for any scale [s ≥ 1]. *)
Lemma scaled_pixels (im : Image) (s : Z) :
  is_canvas im → 1 ≤ s →
  (∀ X Y, pixel (scaled im s) X Y =
     if decide (0 ≤ X < TILE_SIZE * s ∧ 0 ≤ Y < TILE_SIZE * s)
     then pixel im (X `div` s) (Y `div` s) else None) ∧
  scaled im 1 = im.
Proof.
  intros Hc Hs. split.
  - intros X Y. case_decide as HXY.
    + destruct HXY as [HX HY]. unfold TILE_SIZE in *.
      rewrite (Z.div_mod X s) at 1 by lia. rewrite (Z.div_mod Y s) at 1 by lia.
      pose proof (Z.mod_pos_bound X s). pose proof (Z.mod_pos_bound Y s).
      apply scaled_block; [done|done| |lia|lia].
      unfold on_canvas, TILE_SIZE. split.
      * split; [apply Z.div_pos; lia|apply Z.div_lt_upper_bound; lia].
      * split; [apply Z.div_pos; lia|apply Z.div_lt_upper_bound; lia].
    + apply pixel_outside. unfold scaled. by rewrite im_size_resize_nearest.
  - unfold scaled, resize_nearest. destruct Hc as (Hsz & _).
    by rewrite decide_True by (by rewrite Hsz).
Qed.

(** X8. The three images that [create_imageset] saves repeat the pixels of
    the canvas and have no other: in the image saved for the scale [s]
    (1, 2 or 3) the pixel [(X, Y)], for [0 ≤ X, Y < 16 s], is the pixel
    [(X div s, Y div s)] of the canvas, and there is no pixel elsewhere. The
    image saved as [<name>.png] is the canvas itself. *)
Theorem create_imageset_pixels
    (name category : string) (image : ref) (w : world) (im : Image) :
  heap w !! image = Some im → is_canvas im →
  ∃ i1 i2 i3 contents,
    events_of (create_imageset name category image) w =
      [EMakedirs (imageset_folder name category);
       ESave (imageset_file name category (name +:+ ".png")) i1;
       ESave (imageset_file name category (name +:+ "@2x.png")) i2;
       ESave (imageset_file name category (name +:+ "@3x.png")) i3;
       EWriteJson (imageset_file name category "Contents.json") contents] ∧
    i1 = im ∧
    ∀ s i, (s, i) ∈ [(1, i1); (2, i2); (3, i3)] →
      ∀ X Y, pixel i X Y =
        if decide (0 ≤ X < TILE_SIZE * s ∧ 0 ≤ Y < TILE_SIZE * s)
        then pixel im (X `div` s) (Y `div` s) else None.
Proof.
  intros Him Hc.
  exists (scaled im 1), (scaled im 2), (scaled im 3), (imageset_contents name).
  split.
  { eapply events_of_run; [by apply create_imageset_run|done]. }
  split; [by apply (scaled_pixels im 1)|].
  intros s i Hsi.
  assert (1 ≤ s ∧ i = scaled im s) as [Hs ->].
  { rewrite !elem_of_cons, elem_of_nil in Hsi.
    destruct Hsi as [[= -> ->]|[[= -> ->]|[[= -> ->]|[]]]]; split; (lia || done). }
  by apply scaled_pixels.
Qed.

Lemma create_imageset_pixels_witness :
  is_canvas (the_canvas terrain_wall) ∧
  pixel (the_canvas terrain_wall) 4 3 = Some (0, 0, 0, 255) ∧
  pixel (the_canvas terrain_wall) 5 3 = Some (88, 88, 88, 255) ∧
  ∃ i1 i2 i3 contents,
    events_of (create_imageset "terrain_wall" "Terrain" 0%nat)
      (single (the_canvas terrain_wall)) =
      [EMakedirs (imageset_folder "terrain_wall" "Terrain");
       ESave (imageset_file "terrain_wall" "Terrain" ("terrain_wall" +:+ ".png")) i1;
       ESave (imageset_file "terrain_wall" "Terrain" ("terrain_wall" +:+ "@2x.png")) i2;
       ESave (imageset_file "terrain_wall" "Terrain" ("terrain_wall" +:+ "@3x.png")) i3;
       EWriteJson (imageset_file "terrain_wall" "Terrain" "Contents.json") contents] ∧
    i1 = the_canvas terrain_wall ∧
    ∀ s i, (s, i) ∈ [(1, i1); (2, i2); (3, i3)] →
      ∀ X Y, pixel i X Y =
        if decide (0 ≤ X < TILE_SIZE * s ∧ 0 ≤ Y < TILE_SIZE * s)
        then pixel (the_canvas terrain_wall) (X `div` s) (Y `div` s) else None.
Proof.
  assert (is_canvas (the_canvas terrain_wall)) as Hc
    by (by apply (is_canvas_the_canvas 7 "terrain_wall")).
  split; [exact Hc|]. split; [vm_compute; reflexivity|].
  split; [vm_compute; reflexivity|].
  apply (create_imageset_pixels "terrain_wall" "Terrain" 0%nat
           (single (the_canvas terrain_wall)) (the_canvas terrain_wall) eq_refl Hc).
Defined.

(** X9. [create_imageset] reads the image it is given and does not change
    it, nor any other object of the world: it only adds three image
    objects. Run again on the same image, it does to the environment
    exactly what it did the first time. *)
Theorem create_imageset_again
    (name category : string) (image : ref) (w : world) (im : Image) :
  heap w !! image = Some im →
  ∃ w1 w2 new1 new2,
    create_imageset name category image w = (Ret tt, w1) ∧
    create_imageset name category image w1 = (Ret tt, w2) ∧
    heap w1 = heap w ++ new1 ∧ length new1 = 3%nat ∧
    heap w2 = heap w1 ++ new2 ∧ length new2 = 3%nat ∧
    heap w2 !! image = Some im ∧
    events_of (create_imageset name category image) w1
      = events_of (create_imageset name category image) w.
Proof.
  intros Him.
  pose proof (create_imageset_run name category image w im Him) as Hrun.
  set (w1 := {| heap := heap w ++ [scaled im 1; scaled im 2; scaled im 3];
                trace := trace w ++ imageset_events name category im |}) in *.
  assert (heap w1 !! image = Some im) as Him1 by (by apply lookup_app_l_Some).
  pose proof (create_imageset_run name category image w1 im Him1) as Hrun1.
  eexists w1, _, _, _. split; [exact Hrun|]. split; [exact Hrun1|].
  split; [reflexivity|]. split; [reflexivity|].
  split; [reflexivity|]. split; [reflexivity|].
  split; [by apply lookup_app_l_Some|].
  rewrite (events_of_run _ _ _ _ _ Hrun eq_refl).
  by rewrite (events_of_run _ _ _ _ _ Hrun1 eq_refl).
Qed.

Lemma create_imageset_again_witness :
  ∃ w1 w2 new1 new2,
    create_imageset "item_ore" "Items" 0%nat (single blank_canvas) = (Ret tt, w1) ∧
    create_imageset "item_ore" "Items" 0%nat w1 = (Ret tt, w2) ∧
    heap w1 = heap (single blank_canvas) ++ new1 ∧ length new1 = 3%nat ∧
    heap w2 = heap w1 ++ new2 ∧ length new2 = 3%nat ∧
    heap w2 !! 0%nat = Some blank_canvas ∧
    events_of (create_imageset "item_ore" "Items" 0%nat) w1
      = events_of (create_imageset "item_ore" "Items" 0%nat) (single blank_canvas).
Proof.
  apply (create_imageset_again "item_ore" "Items" 0%nat (single blank_canvas)
           blank_canvas eq_refl).
Defined.

(** ** More on paths *)

Lemma prefix_app (a b : string) : String.prefix a (a +:+ b) = true.
Proof.
  induction a as [|ch a IH]; [by destruct b|].
  change (String ch a +:+ b) with (String ch (a +:+ b)). simpl.
  by destruct (Ascii.ascii_dec ch ch).
Qed.

Lemma path_join_relative (a b : string) :
  starts_with_sep b = false → ∃ t, path_join a [b] = a +:+ t.
Proof.
  intros Hb. unfold path_join. simpl. rewrite Hb.
  case_match; eauto.
Qed.

Lemma path_join_absolute (a b : string) :
  starts_with_sep b = true → path_join a [b] = b.
Proof. intros Hb. unfold path_join. simpl. by rewrite Hb. Qed.

Lemma path_join_two (a b c : string) :
  path_join a [b; c] = path_join (path_join a [b]) [c].
Proof. reflexivity. Qed.

Lemma imageset_folder_relative name category :
  starts_with_sep category = false → starts_with_sep name = false →
  ∃ t, imageset_folder name category = (ASSETS_PATH +:+ "/") +:+ t.
Proof.
  intros Hcat Hname. unfold imageset_folder. rewrite path_join_two.
  assert (path_join ASSETS_PATH [category] = (ASSETS_PATH +:+ "/") +:+ category) as ->.
  { unfold path_join. simpl. rewrite Hcat. reflexivity. }
  destruct (path_join_relative ((ASSETS_PATH +:+ "/") +:+ category)
              (name +:+ ".imageset")) as [t ->].
  { rewrite starts_with_sep_app, Hname. by destruct name. }
  exists (category +:+ t). by rewrite string_app_assoc.
Qed.

(** X10. For a category and a sprite name that do not begin with ["/"],
    every path that [create_imageset] makes or writes lies below the assets
    directory. *)
Theorem create_imageset_below_assets
    (name category : string) (image : ref) (w : world) (im : Image) :
  heap w !! image = Some im →
  starts_with_sep category = false → starts_with_sep name = false →
  Forall (λ e, below ASSETS_PATH (op_of e))
    (events_of (create_imageset name category image) w).
Proof.
  intros Him Hcat Hname.
  rewrite (events_of_run _ _ _ _ _ (create_imageset_run name category image w im Him) eq_refl).
  destruct (imageset_folder_relative name category Hcat Hname) as [t Ht].
  assert (∀ file, starts_with_sep file = false →
    String.prefix (ASSETS_PATH +:+ "/") (imageset_file name category file) = true) as Hfile.
  { intros file Hf. unfold imageset_file.
    destruct (path_join_relative (imageset_folder name category) file Hf) as [t' ->].
    rewrite Ht, string_app_assoc. apply prefix_app. }
  assert (∀ rest, starts_with_sep rest = false →
    starts_with_sep (name +:+ rest) = false) as Hrest.
  { intros rest Hr. rewrite starts_with_sep_app, Hname. by destruct name. }
  unfold imageset_events, below.
  repeat (apply Forall_cons; split); [..|apply Forall_nil_2]; simpl.
  - rewrite Ht. apply prefix_app.
  - by apply Hfile, Hrest.
  - by apply Hfile, Hrest.
  - by apply Hfile, Hrest.
  - by apply Hfile.
Qed.

Lemma create_imageset_below_assets_witness :
  Forall (λ e, below ASSETS_PATH (op_of e))
    (events_of (create_imageset "item_ore" "Items" 0%nat) (single blank_canvas)).
Proof.
  apply (create_imageset_below_assets "item_ore" "Items" 0%nat (single blank_canvas)
           blank_canvas eq_refl eq_refl eq_refl).
Defined.

(** X11. A sprite name that begins with ["/"] makes [create_imageset] leave
    the assets directory: [os.path.join] drops what precedes an absolute
    component, so the folder is [<name>.imageset] and the three images are
    saved as [<name>.png], [<name>@2x.png] and [<name>@3x.png], whatever the
    category is; only the descriptor is written inside the folder. *)
Theorem create_imageset_absolute_name
    (name category : string) (image : ref) (w : world) (im : Image) :
  heap w !! image = Some im → starts_with_sep name = true →
  ∃ i1 i2 i3 contents,
    events_of (create_imageset name category image) w =
      [EMakedirs (name +:+ ".imageset");
       ESave (name +:+ ".png") i1;
       ESave (name +:+ "@2x.png") i2;
       ESave (name +:+ "@3x.png") i3;
       EWriteJson (name +:+ ".imageset" +:+ "/" +:+ "Contents.json") contents].
Proof.
  intros Him Hname.
  rewrite (events_of_run _ _ _ _ _ (create_imageset_run name category image w im Him) eq_refl).
  assert (∀ rest, starts_with_sep (name +:+ rest) = true) as Hrest.
  { intros rest. rewrite starts_with_sep_app, Hname. by destruct name. }
  assert (imageset_folder name category = name +:+ ".imageset") as Hfolder.
  { unfold imageset_folder. rewrite path_join_two. by apply path_join_absolute. }
  assert (∀ rest, imageset_file name category (name +:+ rest) = name +:+ rest) as Hfile.
  { intros rest. unfold imageset_file. by apply path_join_absolute. }
  eexists _, _, _, _. unfold imageset_events. rewrite !Hfile, Hfolder.
  repeat f_equal.
  unfold imageset_file. rewrite Hfolder. unfold path_join. simpl.
  assert (ends_with_sep (name +:+ ".imageset") = false) as Hends.
  { clear. induction name as [|ch name IH]; [done|].
    change (String ch name +:+ ".imageset") with (String ch (name +:+ ".imageset")).
    simpl. rewrite IH. by destruct name. }
  rewrite Hends, orb_false_r.
  rewrite bool_decide_eq_false_2; [by rewrite string_app_assoc | by destruct name].
Qed.

Lemma create_imageset_absolute_name_witness :
  ∃ i1 i2 i3 contents,
    events_of (create_imageset "/tmp/x" "Items" 0%nat) (single blank_canvas) =
      [EMakedirs ("/tmp/x" +:+ ".imageset");
       ESave ("/tmp/x" +:+ ".png") i1;
       ESave ("/tmp/x" +:+ "@2x.png") i2;
       ESave ("/tmp/x" +:+ "@3x.png") i3;
       EWriteJson ("/tmp/x" +:+ ".imageset" +:+ "/" +:+ "Contents.json") contents].
Proof.
  apply (create_imageset_absolute_name "/tmp/x" "Items" 0%nat (single blank_canvas)
           blank_canvas eq_refl eq_refl).
Defined.

(** ** More on the driver *)

(** X12. In a run of [main] no file is written twice: the 117 images and
    the 43 descriptors go to 160 different paths. *)
Theorem main_writes_each_file_once (w : world) :
  NoDup (omap (λ e, file_written (op_of e)) (events_of main w)) ∧
  length (omap (λ e, file_written (op_of e)) (events_of main w)) = 160%nat ∧
  length (omap (λ e, image_saved (op_of e)) (events_of main w)) = 117%nat.
Proof.
  rewrite main_events_of. split; [|split].
  - lazymatch goal with |- ?P => apply (bool_decide_eq_true_1 P) end.
    vm_compute. reflexivity.
  - vm_compute. reflexivity.
  - vm_compute. reflexivity.
Qed.

(** X13. The images that a run of [main] saves are, sprite after sprite in
    the order of the catalog, the canvas that the drawer of the sprite
    returns, saved as [<name>.png] in the folder of the sprite, and its
    upscalings by 2 and by 3, saved as [<name>@2x.png] and [<name>@3x.png]. *)
Theorem main_saves_the_canvases (w : world) :
  omap save_of (events_of main w) = sprites ≫= sprite_files ∧
  Forall (λ s : string * string * M ref, returns s.2 (the_canvas s.2)) sprites ∧
  (λ s : string * string * M ref, (s.1.1, s.1.2)) <$> sprites = catalog.
Proof.
  rewrite main_events_of. split; [|split].
  - vm_compute. reflexivity.
  - apply sprites_return.
  - reflexivity.
Qed.

(** ** The palette *)

Lemma foldl_insert_lookup (l : list (string * rgb)) (m : gmap string rgb) k :
  NoDup l.*1 →
  foldl (λ m kv, <[kv.1 := kv.2]> m) m l !! k
  = match (list_to_map l : gmap string rgb) !! k with
    | Some c => Some c
    | None => m !! k
    end.
Proof.
  revert m. induction l as [|[k1 v1] l IH]; intros m Hnd; [done|].
  apply NoDup_cons in Hnd as [Hk1 Hnd]. simpl.
  rewrite IH by done. destruct (decide (k1 = k)) as [->|Hne].
  - rewrite lookup_insert_eq.
    by rewrite (not_elem_of_list_to_map_1 l k Hk1), lookup_insert_eq.
  - rewrite (lookup_insert_ne (list_to_map l)) by done.
    by rewrite (lookup_insert_ne m) by done.
Qed.

Lemma COLORS_items_NoDup : NoDup COLORS_items.*1.
Proof.
  lazymatch goal with |- ?P => apply (bool_decide_eq_true_1 P) end.
  vm_compute. reflexivity.
Qed.

Lemma COLORS_lookup k c : COLORS !! k = Some c ↔ (k, c) ∈ COLORS_items.
Proof.
  unfold COLORS. rewrite foldl_insert_lookup by apply COLORS_items_NoDup.
  rewrite lookup_empty.
  rewrite (elem_of_list_to_map (M:=gmap string) COLORS_items k c COLORS_items_NoDup).
  by destruct (list_to_map COLORS_items !! k).
Qed.

Lemma COLORS_bytes : Forall (λ kc : string * rgb, byte_color kc.2) COLORS_items.
Proof. decide_each. Qed.

(** X15. The palette has 46 entries under 46 different names, so that the
    dict holds exactly the listed pairs: [COLORS[k]] is [c] if and only if
    [(k, c)] is one of them; and every channel of every entry is an 8-bit
    value. *)
Theorem palette_entries :
  length COLORS_items = 46%nat ∧
  NoDup COLORS_items.*1 ∧
  (∀ k c, COLORS !! k = Some c ↔ (k, c) ∈ COLORS_items) ∧
  Forall (λ kc : string * rgb, byte_color kc.2) COLORS_items.
Proof.
  split; [reflexivity|]. split; [apply COLORS_items_NoDup|].
  split; [apply COLORS_lookup | apply COLORS_bytes].
Qed.

(** X16. Two entries of the palette are used by no drawer, ["water_deep"]
    and ["select_orange"]; every other name of the palette is passed by
    some drawer. *)
Theorem palette_names_in_use (k : string) :
  is_Some (COLORS !! k) →
  (k ∈ names_in_use ↔ k ≠ "water_deep" ∧ k ≠ "select_orange").
Proof.
  intros [c Hk]. apply COLORS_lookup in Hk.
  assert (Forall (λ k, k ∈ names_in_use ↔ k ≠ "water_deep" ∧ k ≠ "select_orange")
            COLORS_items.*1) as H by decide_each.
  rewrite Forall_forall in H. apply H.
  apply list_elem_of_fmap. by exists (k, c).
Qed.

Lemma palette_names_in_use_witness :
  ("gold" ∈ names_in_use ↔ "gold" ≠ "water_deep" ∧ "gold" ≠ "select_orange") ∧
  ("water_deep" ∈ names_in_use
     ↔ "water_deep" ≠ "water_deep" ∧ "water_deep" ≠ "select_orange").
Proof.
  split.
  - apply (palette_names_in_use "gold"). by eexists.
  - apply (palette_names_in_use "water_deep"). by eexists.
Defined.

(** ** Channels *)

Lemma bytes_set_pixel_im im x y v :
  bytes_image im → byte_pixel v → bytes_image (set_pixel_im im x y v).
Proof.
  unfold bytes_image, pixels. rewrite !Forall_concat. simpl. intros H Hv.
  apply Forall_alter; [done|]. intros row _ Hrow. by apply Forall_insert.
Qed.

Lemma putpixel_bytes img xy v w :
  byte_pixel v → all_bytes w → all_bytes (putpixel img xy v w).2.
Proof.
  intros Hv Hw. unfold putpixel.
  destruct (heap w !! img) as [im|] eqn:Him; [|done].
  case_match; [|done]. unfold all_bytes in *. simpl.
  apply Forall_insert; [done|]. apply bytes_set_pixel_im; [|done].
  rewrite Forall_forall in Hw. apply Hw. by eapply list_elem_of_lookup_2.
Qed.

Lemma draw_pixel_bytes img x y color w :
  (∀ c, color = Tuple c → byte_color c) →
  all_bytes w → all_bytes (Run.draw_pixel img x y color w).2.
Proof.
  intros Hcol Hw. unfold Run.draw_pixel. case_match; [|done].
  unfold mbind, M_bind.
  destruct color as [k|c].
  - unfold Run.COLORS_get. destruct (COLORS !! k) as [c|] eqn:Hk; [|done].
    apply putpixel_bytes; [|done].
    apply COLORS_lookup in Hk. pose proof COLORS_bytes as HB.
    rewrite Forall_forall in HB. apply (HB (k, c) Hk).
  - apply putpixel_bytes; [|done]. by apply Hcol.
Qed.

(** X17. Every channel that the script writes is an 8-bit value:
    [draw_pixel] and [fill_rect], with a name or with a literal triple of
    8-bit values, keep the images of the world free of any other value, and
    all the pixels of the canvas of each drawer have 8-bit channels. *)
Theorem channels_are_bytes :
  (∀ w img x y color,
     (∀ c, color = Tuple c → byte_color c) →
     all_bytes w → all_bytes (Run.draw_pixel img x y color w).2) ∧
  (∀ wd img x y w h color,
     (∀ c, color = Tuple c → byte_color c) →
     all_bytes wd → all_bytes (Run.fill_rect img x y w h color wd).2) ∧
  Forall (λ nd : string * M ref,
    ∃ im, returns nd.2 im ∧ Forall byte_pixel (pixels im)) drawers.
Proof.
  split; [|split].
  - intros. by apply draw_pixel_bytes.
  - intros wd img x y w h color Hcol. unfold Run.fill_rect.
    apply for_invariant. intros py w1. apply for_invariant. intros px w2.
    by apply draw_pixel_bytes.
  - assert (Forall (λ nd : string * M ref, bytes_image (the_canvas nd.2)) drawers)
      as Hb by decide_each.
    pose proof drawers_return as Hr. rewrite Forall_forall in *.
    intros nd Hnd. destruct (Hr nd Hnd) as (im & Hret & _). exists im.
    split; [done|]. rewrite <-(returns_the_canvas _ _ Hret). by apply Hb.
Qed.

Lemma channels_are_bytes_witness :
  all_bytes (single blank_canvas) ∧
  all_bytes (Run.draw_pixel 0%nat 1 1 (Tuple (255, 0, 7)) (single blank_canvas)).2 ∧
  all_bytes (Run.fill_rect 0%nat 1 1 3 3 (Name "gold") (single blank_canvas)).2.
Proof.
  assert (all_bytes (single blank_canvas)) as H.
  { apply Forall_cons; split; [|apply Forall_nil_2]. unfold bytes_image. decide_each. }
  split; [exact H|]. split.
  - apply (proj1 channels_are_bytes (single blank_canvas) 0%nat 1 1
             (Tuple (255, 0, 7))); [|exact H].
    intros c [= <-]. unfold byte_color, byte_pixel. simpl. lia.
  - apply (proj1 (proj2 channels_are_bytes) (single blank_canvas) 0%nat 1 1 3 3
             (Name "gold")); [|exact H].
    intros c Hc. discriminate Hc.
Defined.

(** X18. Every terrain sprite covers its tile: all 256 pixels of its canvas
    are opaque. Every creature sprite, every item sprite and the UI sprite
    leave some of the transparent background. *)
Theorem terrain_tiles_are_opaque :
  Forall (λ nd : string * M ref,
    ∃ im, returns nd.2 im ∧ Forall opaque (pixels im)) terrain_sprites ∧
  Forall (λ nd : string * M ref,
    ∃ im, returns nd.2 im ∧ Exists transparent (pixels im))
    (creature_sprites ++ item_sprites ++ [("ui_selection", ui_selection)]).
Proof.
  assert (Forall (λ nd : string * M ref, Forall opaque (pixels (the_canvas nd.2)))
            terrain_sprites) as Ht by decide_each.
  assert (Forall (λ nd : string * M ref, Exists transparent (pixels (the_canvas nd.2)))
            (creature_sprites ++ item_sprites ++ [("ui_selection", ui_selection)]))
    as Ho by decide_each.
  pose proof drawers_return as Hr. unfold drawers in Hr.
  apply Forall_app in Hr as [Hrt Hro].
  split.
  - eapply Forall_impl; [apply Forall_and; split; [exact Hrt|exact Ht]|].
    intros nd [(im & Hret & _) Hop]. exists im.
    split; [done|]. by rewrite <-(returns_the_canvas _ _ Hret).
  - eapply Forall_impl; [apply Forall_and; split; [exact Hro|exact Ho]|].
    intros nd [(im & Hret & _) Htr]. exists im.
    split; [done|]. by rewrite <-(returns_the_canvas _ _ Hret).
Qed.
